(** * XineteDecentralizedStorage: the metadata registry and the IPFS upload path

    A shallow embedding of [contracts/XineteDecentralizedStorage.sol] and of
    [uploadFileToIPFS] from the IPFS service, with the properties the
    specification states about them.

    Conventions of the embedding:
    - a Solidity [mapping(K => V)] is a finite map [gmap K V] that is always
      read through [m.[k]], which yields the zero value of [V] for a key
      that was never written or was deleted;
    - [uint256] and [address] values are natural numbers ([N]); no arithmetic
      is performed on them by the contract, only equality tests;
    - [keccak256(bytes(a)) == keccak256(bytes(b))] is the contract's idiom for
      string equality and is modelled as [a = b];
    - a contract function is a computation [Tx A] over the contract state that
      either finishes or reverts with the message of the failing [require];
    - the sender of a transaction is an account: [msg.sender] is never
      [address(0)].  The functions themselves are defined for every sender;
      the assumption is stated where it is used. *)

From stdpp Require Import gmap strings list fin_maps.
From Stdlib Require Import NArith HexString Ascii.

Local Open Scope string_scope.

(** ** Solidity mappings *)

Class Zero (V : Type) := zero : V.

Global Instance string_zero : Zero string := "".
Global Instance N_zero : Zero N := 0%N.
Global Instance list_zero {A} : Zero (list A) := [].

Definition mget `{Countable K} {V} `{Zero V} (m : gmap K V) (k : K) : V :=
  default zero (m !! k).

Notation "m .[ k ]" := (mget m k) (at level 1, left associativity, format "m .[ k ]").


(** ** The registry contract *)

Module Registry.

Abbreviation address := N (only parsing).

(** [address(0)] *)
Definition address0 : address := 0%N.

(** [struct MetadataInfo] *)
Record MetadataInfo := {
  cid : string;
  hash : string;
  timestamp : N;
  nftName : string;
  imageURI : string
}.

Global Instance MetadataInfo_zero : Zero MetadataInfo :=
  {| cid := ""; hash := ""; timestamp := 0; nftName := ""; imageURI := "" |}.

(** The three events of the contract, with their arguments in source order. *)
Inductive Event :=
| MetadataStored (creator : address) (cid hash nftName : string) (timestamp : N)
| MetadataUpdated (creator : address) (oldCid newCid hash : string)
| MetadataRemoved (creator : address) (cid : string).

(** Contract storage, together with the log of emitted events. *)
Record State := {
  userMetadataCIDs : gmap address (list string);
  hashToCID : gmap string string;
  cidToOwner : gmap string address;
  cidToMetadataInfo : gmap string MetadataInfo;
  events : list Event
}.

(** The state of a freshly deployed contract. *)
Definition empty_state : State :=
  {| userMetadataCIDs := ∅; hashToCID := ∅; cidToOwner := ∅;
     cidToMetadataInfo := ∅; events := [] |}.

Definition set_userMetadataCIDs (f : gmap address (list string) → gmap address (list string))
    (st : State) : State :=
  {| userMetadataCIDs := f (userMetadataCIDs st); hashToCID := hashToCID st;
     cidToOwner := cidToOwner st; cidToMetadataInfo := cidToMetadataInfo st;
     events := events st |}.

Definition set_hashToCID (f : gmap string string → gmap string string) (st : State) : State :=
  {| userMetadataCIDs := userMetadataCIDs st; hashToCID := f (hashToCID st);
     cidToOwner := cidToOwner st; cidToMetadataInfo := cidToMetadataInfo st;
     events := events st |}.

Definition set_cidToOwner (f : gmap string address → gmap string address) (st : State) : State :=
  {| userMetadataCIDs := userMetadataCIDs st; hashToCID := hashToCID st;
     cidToOwner := f (cidToOwner st); cidToMetadataInfo := cidToMetadataInfo st;
     events := events st |}.

Definition set_cidToMetadataInfo (f : gmap string MetadataInfo → gmap string MetadataInfo)
    (st : State) : State :=
  {| userMetadataCIDs := userMetadataCIDs st; hashToCID := hashToCID st;
     cidToOwner := cidToOwner st; cidToMetadataInfo := f (cidToMetadataInfo st);
     events := events st |}.

Definition add_event (e : Event) (st : State) : State :=
  {| userMetadataCIDs := userMetadataCIDs st; hashToCID := hashToCID st;
     cidToOwner := cidToOwner st; cidToMetadataInfo := cidToMetadataInfo st;
     events := (events st ++ [e])%list |}.

(** *** Transactions

    A contract function runs on a state and either finishes with a value and
    the state it has written, or reverts.  [Reverted] keeps the message of the
    failing [require] and the state as it was written up to that point, so that
    one can say what a failing call had done before it failed; the ledger
    discards that state ([commit] below). *)

Inductive Outcome (A : Type) : Type :=
| Done (a : A) (st : State)
| Reverted (reason : string) (st : State).
Arguments Done {A} a st.
Arguments Reverted {A} reason st.

Definition Tx (A : Type) : Type := State → Outcome A.

Definition ret {A} (a : A) : Tx A := λ st, Done a st.

Definition bind {A B} (m : Tx A) (k : A → Tx B) : Tx B :=
  λ st, match m st with
        | Done a st' => k a st'
        | Reverted r st' => Reverted r st'
        end.

Global Instance tx_ret : MRet Tx := @ret.
Global Instance tx_bind : MBind Tx := λ A B k m, bind m k.

(** [require(cond, reason)] *)
Definition require (cond : bool) (reason : string) : Tx unit :=
  λ st, if cond then Done tt st else Reverted reason st.

(** Reading and writing storage. *)
Definition gets {A} (f : State → A) : Tx A := λ st, Done (f st) st.
Definition modify (f : State → State) : Tx unit := λ st, Done tt (f st).

(** [emit e] *)
Definition emit (e : Event) : Tx unit := modify (add_event e).

(** The transaction context the contract reads: [msg.sender] and
    [block.timestamp]. *)
Record Env := { msg_sender : address; block_timestamp : N }.

(** [bytes(s).length > 0] *)
Definition nonempty (s : string) : bool := bool_decide (0 < String.length s).

(** The scan of [updateMetadata] over the caller's array: the first slot that
    holds [_oldCid] is overwritten with [_newCid] and the loop breaks; when no
    slot holds it the array is left as it is. *)
Definition replace_first (_oldCid _newCid : string) (userCIDs : list string) : list string :=
  match list_find (λ c, c = _oldCid) userCIDs with
  | Some (i, _) => <[i := _newCid]> userCIDs
  | None => userCIDs
  end.

(** [userCIDs.pop()] *)
Definition pop (userCIDs : list string) : list string :=
  take (length userCIDs - 1) userCIDs.

(** The scan of [removeMetadata]: at the first slot [i] that holds [_cid], the
    last element is copied to slot [i], the last slot is popped and the loop
    breaks.  Both indices are in range there: [i] was just read, and the array
    is not empty. *)
Definition swap_remove (_cid : string) (userCIDs : list string) : list string :=
  match list_find (λ c, c = _cid) userCIDs with
  | Some (i, _) =>
      pop (<[i := default "" (userCIDs !! (length userCIDs - 1))]> userCIDs)
  | None => userCIDs
  end.

(** [function storeMetadata(_cid, _hash, _nftName, _imageURI) public] *)
Definition storeMetadata (e : Env) (_cid _hash _nftName _imageURI : string) : Tx unit :=
  require (nonempty _cid) "CID cannot be empty";;
  require (nonempty _hash) "Hash cannot be empty";;
  owner ← gets (λ st, (cidToOwner st).[_cid]);
  require (bool_decide (owner = address0)) "CID already registered";;
  known ← gets (λ st, (hashToCID st).[_hash]);
  require (bool_decide (known = "")) "Hash already exists";;
  modify (set_userMetadataCIDs (λ m, <[msg_sender e := (m.[msg_sender e] ++ [_cid])%list]> m));;
  modify (set_hashToCID (insert _hash _cid));;
  modify (set_cidToOwner (insert _cid (msg_sender e)));;
  modify (set_cidToMetadataInfo (insert _cid
    {| cid := _cid; hash := _hash; timestamp := block_timestamp e;
       nftName := _nftName; imageURI := _imageURI |}));;
  emit (MetadataStored (msg_sender e) _cid _hash _nftName (block_timestamp e)).

(** [function updateMetadata(_oldCid, _newCid, _hash, _nftName, _imageURI) public] *)
Definition updateMetadata (e : Env) (_oldCid _newCid _hash _nftName _imageURI : string)
    : Tx unit :=
  oldOwner ← gets (λ st, (cidToOwner st).[_oldCid]);
  require (bool_decide (oldOwner = msg_sender e)) "Not the owner of this metadata";;
  require (nonempty _newCid) "New CID cannot be empty";;
  require (nonempty _hash) "Hash cannot be empty";;
  newOwner ← gets (λ st, (cidToOwner st).[_newCid]);
  require (bool_decide (newOwner = address0)) "New CID already registered";;
  known ← gets (λ st, (hashToCID st).[_hash]);
  require (bool_decide (known = "")) "New hash already exists";;
  modify (set_userMetadataCIDs
    (λ m, <[msg_sender e := replace_first _oldCid _newCid m.[msg_sender e]]> m));;
  oldHash ← gets (λ st, hash (cidToMetadataInfo st).[_oldCid]);
  modify (set_hashToCID (delete oldHash));;
  modify (set_cidToOwner (delete _oldCid));;
  modify (set_cidToOwner (insert _newCid (msg_sender e)));;
  modify (set_hashToCID (insert _hash _newCid));;
  modify (set_cidToMetadataInfo (delete _oldCid));;
  modify (set_cidToMetadataInfo (insert _newCid
    {| cid := _newCid; hash := _hash; timestamp := block_timestamp e;
       nftName := _nftName; imageURI := _imageURI |}));;
  emit (MetadataUpdated (msg_sender e) _oldCid _newCid _hash).

(** [function removeMetadata(_cid) public] *)
Definition removeMetadata (e : Env) (_cid : string) : Tx unit :=
  owner ← gets (λ st, (cidToOwner st).[_cid]);
  require (bool_decide (owner = msg_sender e)) "Not the owner of this metadata";;
  modify (set_userMetadataCIDs
    (λ m, <[msg_sender e := swap_remove _cid m.[msg_sender e]]> m));;
  h ← gets (λ st, hash (cidToMetadataInfo st).[_cid]);
  modify (set_hashToCID (delete h));;
  modify (set_cidToOwner (delete _cid));;
  modify (set_cidToMetadataInfo (delete _cid));;
  emit (MetadataRemoved (msg_sender e) _cid).

(** [function getCIDByHash(_hash) public view] *)
Definition getCIDByHash (_hash : string) : Tx string :=
  gets (λ st, (hashToCID st).[_hash]).

(** [function getUserMetadataCIDs(_user) public view] *)
Definition getUserMetadataCIDs (_user : address) : Tx (list string) :=
  gets (λ st, (userMetadataCIDs st).[_user]).

(** [function getMetadataOwner(_cid) public view] *)
Definition getMetadataOwner (_cid : string) : Tx address :=
  gets (λ st, (cidToOwner st).[_cid]).

(** [function getMetadataInfo(_cid) public view] *)
Definition getMetadataInfo (_cid : string) : Tx MetadataInfo :=
  owner ← gets (λ st, (cidToOwner st).[_cid]);
  require (bool_decide (owner ≠ address0)) "Metadata does not exist";;
  gets (λ st, (cidToMetadataInfo st).[_cid]).

(** [function verifyMetadata(_cid, _hash) public view] *)
Definition verifyMetadata (_cid _hash : string) : Tx bool :=
  owner ← gets (λ st, (cidToOwner st).[_cid]);
  known ← gets (λ st, (hashToCID st).[_hash]);
  ret (bool_decide (owner ≠ address0) && bool_decide (known = _cid)).

(** *** The ledger

    A transaction is one call of a mutating function in a context.  The ledger
    keeps the state a finished call has written and discards everything a
    reverted call did. *)

Inductive Call :=
| StoreMetadata (_cid _hash _nftName _imageURI : string)
| UpdateMetadata (_oldCid _newCid _hash _nftName _imageURI : string)
| RemoveMetadata (_cid : string).

Definition call (e : Env) (c : Call) : Tx unit :=
  match c with
  | StoreMetadata _cid _hash _nftName _imageURI =>
      storeMetadata e _cid _hash _nftName _imageURI
  | UpdateMetadata _oldCid _newCid _hash _nftName _imageURI =>
      updateMetadata e _oldCid _newCid _hash _nftName _imageURI
  | RemoveMetadata _cid => removeMetadata e _cid
  end.

Definition commit {A} (m : Tx A) (st : State) : State :=
  match m st with
  | Done _ st' => st'
  | Reverted _ _ => st
  end.

(** The states the contract can be in: the deployed state, and every state a
    successful transaction leaves.  The sender of a transaction is an account,
    which is never [address(0)]. *)
Inductive reachable : State → Prop :=
| reachable_empty : reachable empty_state
| reachable_step st e c st' :
    reachable st →
    msg_sender e ≠ address0 →
    call e c st = Done tt st' →
    reachable st'.

(** *** Error kinds

    The contract reverts with a message.  The specification speaks of kinds of
    error; [error_kind] sorts the contract's messages into those kinds. *)

Inductive ErrorKind :=
| ValidationError
| ConflictError
| AuthorizationError
| NotFoundError.

Definition error_table : gmap string ErrorKind :=
  list_to_map [
    ("CID cannot be empty", ValidationError);
    ("Hash cannot be empty", ValidationError);
    ("New CID cannot be empty", ValidationError);
    ("CID already registered", ConflictError);
    ("Hash already exists", ConflictError);
    ("New CID already registered", ConflictError);
    ("New hash already exists", ConflictError);
    ("Not the owner of this metadata", AuthorizationError);
    ("Metadata does not exist", NotFoundError)
  ].

Definition error_kind (reason : string) : option ErrorKind := error_table !! reason.

(** A call fails with an error of kind [k]: it reverts with a message of that
    kind. *)
Definition fails_with {A} (o : Outcome A) (k : ErrorKind) : Prop :=
  ∃ reason st, o = Reverted reason st ∧ error_kind reason = Some k.

(** *** Observations on a state *)

(** An identifier is registered when it has an owner: this is the test the
    contract itself makes in [storeMetadata], [getMetadataInfo] and
    [verifyMetadata]. *)
Definition active (st : State) (id : string) : Prop :=
  (cidToOwner st).[id] ≠ address0.

(** An identifier has a record in [cidToMetadataInfo]. *)
Definition has_record (st : State) (id : string) : Prop :=
  is_Some (cidToMetadataInfo st !! id).

(** A hash is in the hash index when [hashToCID] holds a non-empty identifier
    for it: this is the test the contract makes before it accepts a hash. *)
Definition hash_known (st : State) (h : string) : Prop :=
  (hashToCID st).[h] ≠ "".

(** *** The invariant of the registry

    [inv_listed] and [inv_owned] say that the arrays of [userMetadataCIDs] list
    exactly the registered identifiers, each under its owner; [inv_record] that
    [cidToMetadataInfo] holds a record for exactly the registered identifiers;
    [inv_hash] that [hashToCID] is the inverse of the records' [hash] field. *)
Record registry_inv (st : State) : Prop := {
  inv_empty_cid : ¬ active st "";
  inv_listed u id :
    id ∈ (userMetadataCIDs st).[u] → u ≠ address0 ∧ (cidToOwner st).[id] = u;
  inv_owned id :
    active st id → id ∈ (userMetadataCIDs st).[(cidToOwner st).[id]];
  inv_nodup u : NoDup (userMetadataCIDs st).[u];
  inv_record id : has_record st id ↔ active st id;
  inv_hash h id :
    (hashToCID st).[h] = id ∧ id ≠ "" ↔
    active st id ∧ hash (cidToMetadataInfo st).[id] = h
}.

(** What every stored record looks like: it sits under its own identifier,
    and neither the identifier nor the hash is empty. *)
Definition record_wf (st : State) : Prop :=
  ∀ id r, cidToMetadataInfo st !! id = Some r →
    cid r = id ∧ id ≠ "" ∧ hash r ≠ "".

(** *** Counting events *)

Definition is_stored (ev : Event) : bool :=
  match ev with MetadataStored _ _ _ _ _ => true | _ => false end.

Definition is_removed (ev : Event) : bool :=
  match ev with MetadataRemoved _ _ => true | _ => false end.

Definition count_events (p : Event → bool) (log : list Event) : nat :=
  length (filter (λ ev, p ev = true) log).

End Registry.

(** ** The IPFS service: [uploadFileToIPFS] *)

Module IpfsService.

(** A thrown JavaScript [Error], by its [message]. *)
Abbreviation Exn := string (only parsing).

(** What [ipfs.add] resolves to. *)
Record AddResult := { res_cid : string; res_path : string; res_size : N }.

(** The options [uploadFileToIPFS] passes to [ipfs.add]: whether a progress
    callback is given, and [pin]. *)
Record AddOptions := { opt_progress : bool; opt_pin : bool }.

(** The IPFS client, by what its calls answer: a value, or a thrown error. *)
Record Client := {
  add : string → list Byte.byte → AddOptions → Exn + AddResult;
  pin_add : string → Exn + unit
}.

(** A browser [File]: [file.name], [file.size] and what [file.arrayBuffer()]
    resolves to. *)
Record File := {
  file_name : string;
  file_size : N;
  arrayBuffer : Exn + list Byte.byte
}.

(** The module-level variables [ipfs] (unset until [initializeIPFS] has run)
    and [ipfsGateway], and the build flag [import.meta.env.PROD]. *)
Record Service := {
  ipfs : option Client;
  ipfsGateway : string;
  PROD : bool
}.

(** The object [uploadFileToIPFS] returns. *)
Record UploadResult := {
  cid : string;
  path : string;
  size : N;
  gateway : string;
  pinned : bool
}.

Inductive Level := LOG | WARN | ERROR.

(** What was written to the console, in order. *)
Abbreviation Console := (list (Level * string)) (only parsing).

(** [export const uploadFileToIPFS = async (file, onProgress = null) => ...].
    The result is the console output and either the value the promise resolves
    to ([inr]) or the error it rejects with ([inl]). *)
Definition uploadFileToIPFS (s : Service) (file : File) (onProgress : bool)
    : Console * (Exn + UploadResult) :=
  match ipfs s with
  | None =>
      if PROD s then
        ([], inl "IPFS client not initialized. For production environments, ensure you have access to an IPFS node or try running your own node.")
      else
        ([], inl "IPFS client not initialized. Call initializeIPFS first.")
  | Some client =>
      match arrayBuffer file with
      | inl error => ([(ERROR, "Error uploading file to IPFS: " ++ error)], inl error)
      | inr buffer =>
          match add client (file_name file) buffer
                  {| opt_progress := onProgress; opt_pin := true |} with
          | inl error => ([(ERROR, "Error uploading file to IPFS: " ++ error)], inl error)
          | inr result =>
              let out :=
                match pin_add client (res_cid result) with
                | inr _ => [(LOG, "Successfully pinned file with CID: " ++ res_cid result)]
                | inl pinError =>
                    [(WARN, "Warning: Could not explicitly pin the file: " ++ pinError)]
                end in
              (out, inr {| cid := res_cid result;
                           path := res_path result;
                           size := res_size result;
                           gateway := ipfsGateway s ++ "/" ++ res_cid result;
                           pinned := true |})
          end
      end
  end.

(** *** The other functions of the service *)

(** [export const uploadJSONToIPFS = async (jsonData) => ...].  [stringify]
    is what [JSON.stringify(jsonData)] gives: the text, or the error it
    throws.  The text is handed to [ipfs.add] as the content. *)
Definition uploadJSONToIPFS (s : Service) (stringify : Exn + string)
    : Console * (Exn + UploadResult) :=
  match ipfs s with
  | None => ([], inl "IPFS client not initialized. Call initializeIPFS first.")
  | Some client =>
      match stringify with
      | inl error => ([(ERROR, "Error uploading JSON to IPFS: " ++ error)], inl error)
      | inr jsonString =>
          match add client "metadata.json" (String.list_byte_of_string jsonString)
                  {| opt_progress := false; opt_pin := true |} with
          | inl error => ([(ERROR, "Error uploading JSON to IPFS: " ++ error)], inl error)
          | inr result =>
              let out :=
                match pin_add client (res_cid result) with
                | inr _ =>
                    [(LOG, "Successfully pinned JSON metadata with CID: " ++ res_cid result)]
                | inl pinError =>
                    [(WARN, "Warning: Could not explicitly pin the JSON metadata: "
                              ++ pinError)]
                end in
              (out, inr {| cid := res_cid result;
                           path := res_path result;
                           size := res_size result;
                           gateway := ipfsGateway s ++ "/" ++ res_cid result;
                           pinned := true |})
          end
      end
  end.

(** The environment variables [initializeIPFS] reads from [import.meta.env];
    [None] is an unset variable. *)
Record ImportMetaEnv := {
  VITE_IPFS_API_HOST : option string;
  VITE_IPFS_API_PORT : option string;
  VITE_IPFS_GATEWAY : option string
}.

(** The [config] argument of [initializeIPFS]; [None] is an absent property,
    for which the destructuring default applies. *)
Record Config := {
  ipfsApiUrl : option string;
  ipfsGatewayUrl : option string
}.

(** [x || d] on a possibly unset string: unset and empty are both falsy. *)
Definition or_else (x : option string) (d : string) : string :=
  match x with
  | Some v => if bool_decide (v = "") then d else v
  | None => d
  end.

(** [export const initializeIPFS = (config = {}) => ...].  [create] is
    [create({ url })] of the IPFS HTTP client library: a client, or a thrown
    error.  The result is the console output, the module variables after the
    call, and the returned boolean. *)
Definition initializeIPFS (create : string → Exn + Client) (env : ImportMetaEnv)
    (config : Config) (s : Service) : Console * (Service * bool) :=
  let apiUrl :=
    default ("http://" ++ or_else (VITE_IPFS_API_HOST env) "localhost" ++ ":"
               ++ or_else (VITE_IPFS_API_PORT env) "5001" ++ "/api/v0")
            (ipfsApiUrl config) in
  let gatewayUrl :=
    default (or_else (VITE_IPFS_GATEWAY env) "http://localhost:8080/ipfs")
            (ipfsGatewayUrl config) in
  match create apiUrl with
  | inr client =>
      ([(LOG, "IPFS client initialized successfully")],
       ({| ipfs := Some client; ipfsGateway := gatewayUrl; PROD := PROD s |}, true))
  | inl error =>
      ((ERROR, "Failed to initialize IPFS client: " ++ error)
         :: (if PROD s
             then [(WARN, "Falling back to view-only mode with public gateway")]
             else []),
       ({| ipfs := ipfs s; ipfsGateway := gatewayUrl; PROD := PROD s |}, false))
  end.

(** *** Pinning

    What the pinning functions do is recorded as a trace: the requests they
    send to the node and the lines they print, in order. *)

Inductive Effect :=
| PinAdd (cid : string)
| PinLs (cid : string)
| Print (level : Level) (line : string).

(** The identifiers a trace asks the node to pin, in order. *)
Definition pin_requests (trace : list Effect) : list string :=
  omap (λ eff, match eff with PinAdd cid => Some cid | _ => None end) trace.

(** An asynchronous call: its trace, and the value it resolves to or the
    error it rejects with. *)
Definition Async (A : Type) : Type := list Effect * (Exn + A).

Definition resolve {A} (a : A) : Async A := ([], inr a).

Definition reject {A} (error : Exn) : Async A := ([], inl error).

Definition print (level : Level) (line : string) : Async unit :=
  ([Print level line], inr tt).

(** [await m] followed by the rest of the function. *)
Definition and_then {A B} (m : Async A) (k : A → Async B) : Async B :=
  match m with
  | (t, inl error) => (t, inl error)
  | (t, inr a) => let '(t', r) := k a in ((t ++ t')%list, r)
  end.

(** [try { m } catch (error) { handler(error) }] *)
Definition try_catch {A} (m : Async A) (handler : Exn → Async A) : Async A :=
  match m with
  | (t, inl error) => let '(t', r) := handler error in ((t ++ t')%list, r)
  | (t, inr a) => (t, inr a)
  end.

(** [export const pinContent = async (cid) => ...] *)
Definition pinContent (s : Service) (cid : string) : Async bool :=
  match ipfs s with
  | None => reject "IPFS client not initialized. Call initializeIPFS first."
  | Some client =>
      try_catch
        (and_then ([PinAdd cid], pin_add client cid) (λ _,
         and_then (print LOG ("Successfully pinned content with CID: " ++ cid)) (λ _,
         resolve true)))
        (λ error,
         and_then (print ERROR ("Error pinning content with CID " ++ cid ++ ": " ++ error))
           (λ _, resolve false))
  end.

(** What iterating [ipfs.pin.ls({ paths: [cid] })] yields: the identifiers of
    the listed items in order and, when the listing throws, the error that
    ends it. *)
Abbreviation PinLsAnswer := (list string * option Exn)%type (only parsing).

(** The [for await] loop of [isPinned]: it returns true at the first item
    whose identifier is [cid]; it returns false when the items run out, and
    rejects when the listing throws before that. *)
Fixpoint scan_pins (cid : string) (items : list string) (ending : option Exn)
    : Async bool :=
  match items with
  | item :: rest =>
      if bool_decide (item = cid) then resolve true else scan_pins cid rest ending
  | [] =>
      match ending with
      | Some error => reject error
      | None => resolve false
      end
  end%list.

(** [export const isPinned = async (cid) => ...].  [pin_ls] is the [pin.ls]
    method of the client. *)
Definition isPinned (s : Service) (pin_ls : string → PinLsAnswer) (cid : string)
    : Async bool :=
  match ipfs s with
  | None => reject "IPFS client not initialized. Call initializeIPFS first."
  | Some _ =>
      try_catch
        (and_then ([PinLs cid], inr tt) (λ _,
         scan_pins cid (fst (pin_ls cid)) (snd (pin_ls cid))))
        (λ error,
         and_then (print ERROR ("Error checking pin status for CID " ++ cid ++ ": " ++ error))
           (λ _, resolve false))
  end.

(** *** The digest in hexadecimal *)

(** [n.toString(16)] for a non-negative integer. *)
Definition toString16 (n : N) : string :=
  match n with
  | N0 => "0"
  | Npos p => HexString.Raw.of_pos p ""
  end.

(** [s.padStart(targetLength, c)] for a one-character pad string. *)
Definition padStart (targetLength : nat) (c : Ascii.ascii) (s : string) : string :=
  String.string_of_list_ascii (replicate (targetLength - String.length s) c) ++ s.

(** [hashArray.map(b => b.toString(16).padStart(2, '0')).join('')] *)
Definition hashHex (hashArray : list Byte.byte) : string :=
  String.concat "" (map (λ b, padStart 2 "0"%char (toString16 (Byte.to_N b))) hashArray).

(** [export const generateSHA256Hash = async (content) => ...].
    [subtle_digest] is [crypto.subtle.digest('SHA-256', _)]: the digest, or a
    thrown error.  A string is taken as the bytes of its UTF-8 encoding, which
    is what [TextEncoder] produces. *)
Definition generateSHA256Hash (subtle_digest : list Byte.byte → Exn + list Byte.byte)
    (content : string + list Byte.byte) : Console * (Exn + string) :=
  let contentBuffer :=
    match content with
    | inl text => String.list_byte_of_string text
    | inr bytes => bytes
    end in
  match subtle_digest contentBuffer with
  | inr hashBuffer => ([], inr (hashHex hashBuffer))
  | inl error => ([(ERROR, "Error generating SHA-256 hash: " ++ error)], inl error)
  end.

(** The characters [hashHex] is made of. *)
Definition lower_hex_digit (c : ascii) : Prop :=
  c ∈ String.list_ascii_of_string "0123456789abcdef".

End IpfsService.

(** ** The collection view: what it does with the two services *)

Module CollectionView.
Import IpfsService.

(** The block of [fetchNFTsFromBlockchain] in the collection view that runs
    for every fetched record ("Ensure both metadata and image are pinned for
    persistence"): check the metadata identifier and pin it if it is not
    pinned, then the same for the image identifier when there is one; any
    error is caught and printed as a warning. *)
Definition ensurePinned (s : Service) (pin_ls : string → PinLsAnswer)
    (cid imageCid : string) : Async unit :=
  try_catch
    (and_then (isPinned s pin_ls cid) (λ metadataPinned,
     and_then
       (if metadataPinned then resolve tt
        else and_then (print LOG ("Pinning metadata with CID " ++ cid ++ "..."))
               (λ _, and_then (pinContent s cid) (λ _, resolve tt))) (λ _,
     if bool_decide (imageCid = "") then resolve tt
     else
       and_then (isPinned s pin_ls imageCid) (λ imagePinned,
       if imagePinned then resolve tt
       else and_then (print LOG ("Pinning image with CID " ++ imageCid ++ "..."))
              (λ _, and_then (pinContent s imageCid) (λ _, resolve tt))))))
    (λ pinError,
     and_then (print WARN ("Could not pin content: " ++ pinError)) (λ _, resolve tt)).

(** What [handleVerifyNFT] shows in its [alert]: "NFT verified on
    blockchain!", "Verification failed: CID mismatch", or "Error during
    verification: " followed by the message of the error. *)
Inductive Alert :=
| NFTVerified
| CIDMismatch
| VerificationError (message : Exn).

(** [const handleVerifyNFT = async (metadataCid) => ...].  [getCIDByHash] is
    the contract call [contract.getCIDByHash(_)] as the view sees it: the
    returned string, or a thrown error. *)
Definition handleVerifyNFT (subtle_digest : list Byte.byte → Exn + list Byte.byte)
    (getCIDByHash : string → Exn + string) (metadataCid : string) : Console * Alert :=
  match generateSHA256Hash subtle_digest (inl metadataCid) with
  | (out, inl err) => (out, VerificationError err)
  | (out, inr metadataHash) =>
      match getCIDByHash metadataHash with
      | inl err => (out, VerificationError err)
      | inr storedCid =>
          (out, if bool_decide (storedCid = metadataCid) then NFTVerified else CIDMismatch)
      end
  end.

End CollectionView.

(** ** Concrete states and calls used in the examples *)

Module Demo.
Import Registry.

Definition alice : address := 7.
Definition bob : address := 9.

Definition at_100_alice : Env := {| msg_sender := alice; block_timestamp := 100 |}.
Definition at_200_alice : Env := {| msg_sender := alice; block_timestamp := 200 |}.
Definition at_200_bob : Env := {| msg_sender := bob; block_timestamp := 200 |}.

(** The state after [alice] has stored ["bafyAAA"] with hash ["6f2c"]. *)
Definition st1 : State :=
  commit (storeMetadata at_100_alice "bafyAAA" "6f2c" "demo" "bafyIMG") empty_state.

(** The states after [alice] has then stored ["bafyBBB"], and ["bafyCCC"]. *)
Definition st2 : State :=
  commit (storeMetadata at_200_alice "bafyBBB" "9a1b" "two" "bafyIMG2") st1.

Definition st3 : State :=
  commit (storeMetadata at_200_alice "bafyCCC" "c3d4" "three" "bafyIMG3") st2.

(** The state after [alice] has stored ["bafyAAA"] under the hash that
    [short_digest] below gives it, and a contract handle that answers
    [getCIDByHash] from that state. *)
Definition st_hashed : State :=
  commit (storeMetadata at_100_alice "bafyAAA" "00ff" "demo" "bafyIMG") empty_state.

Definition contract_at (st : State) (h : string) : string + string :=
  match getCIDByHash h st with
  | Done stored _ => inr stored
  | Reverted reason _ => inl reason
  end.

(** A client whose node accepts uploads and refuses pin requests. *)
Definition no_pin_client : IpfsService.Client :=
  {| IpfsService.add := λ path content _,
       inr {| IpfsService.res_cid := "bafyFILE";
              IpfsService.res_path := path;
              IpfsService.res_size := N.of_nat (length content) |};
     IpfsService.pin_add := λ _, inl "pin refused" |}.

Definition no_pin_service : IpfsService.Service :=
  {| IpfsService.ipfs := Some no_pin_client;
     IpfsService.ipfsGateway := "http://localhost:8080/ipfs";
     IpfsService.PROD := false |}.

(** A digest function that answers the two bytes [00 ff] for every input. *)
Definition short_digest : list Byte.byte → string + list Byte.byte :=
  λ _, inr [Byte.x00; Byte.xff].

Definition two_bytes : IpfsService.File :=
  {| IpfsService.file_name := "a.png";
     IpfsService.file_size := 2;
     IpfsService.arrayBuffer := inr [Byte.x00; Byte.x01] |}.

End Demo.

(** * Properties *)

Import Registry.
Local Open Scope list_scope.
#[local] Set Warnings "-clear-no-such-hyp".

(** ** Mappings *)

Section mapping_lemmas.
Context `{Countable K} {V : Type} `{Zero V}.
Implicit Types (m : gmap K V) (k : K) (v : V).

Lemma mget_empty k : (∅ : gmap K V).[k] = zero.
Proof. unfold mget. by rewrite lookup_empty. Qed.

Lemma mget_insert_eq m k v : (<[k:=v]> m).[k] = v.
Proof. unfold mget. by rewrite lookup_insert_eq. Qed.

Lemma mget_insert_ne m k k' v : k ≠ k' → (<[k:=v]> m).[k'] = m.[k'].
Proof. intros. unfold mget. by rewrite lookup_insert_ne. Qed.

Lemma mget_delete_eq m k : (delete k m).[k] = zero.
Proof. unfold mget. by rewrite lookup_delete_eq. Qed.

Lemma mget_delete_ne m k k' : k ≠ k' → (delete k m).[k'] = m.[k'].
Proof. intros. unfold mget. by rewrite lookup_delete_ne. Qed.

End mapping_lemmas.

(** ** The two array scans *)

Section scans.
Implicit Types (l k : list string) (c old new : string).

Lemma scan_finds c l :
  c ∈ l → ∃ i, list_find (λ x, x = c) l = Some (i, c) ∧ l !! i = Some c.
Proof.
  intros Hin.
  destruct (list_find_elem_of (λ x, x = c) l c Hin eq_refl) as [[i x] Hfind].
  pose proof Hfind as (Hi & -> & _)%list_find_Some. eauto.
Qed.

Lemma scan_misses c l : c ∉ l → list_find (λ x, x = c) l = None.
Proof.
  intros Hnin. apply list_find_None, Forall_forall. by intros x Hx ->.
Qed.

Lemma insert_swaps_head l i x y :
  l !! i = Some x → ∃ k, l ≡ₚ x :: k ∧ <[i:=y]> l ≡ₚ y :: k.
Proof.
  intros Hi. exists (take i l ++ drop (S i) l). split.
  - rewrite <- (take_drop_middle l i x Hi) at 1. by rewrite Permutation_middle.
  - rewrite insert_take_drop by eauto using lookup_lt_Some.
    by rewrite Permutation_middle.
Qed.

(** [updateMetadata]'s scan, when the old identifier is in the array. *)
Lemma replace_first_found old new l :
  old ∈ l →
  ∃ i, l !! i = Some old ∧ replace_first old new l = <[i:=new]> l.
Proof.
  intros (i & Hfind & Hi)%scan_finds. exists i. split; [done|].
  unfold replace_first. by rewrite Hfind.
Qed.

(** [updateMetadata]'s scan, when it is not: nothing is written, and nothing
    is appended. *)
Lemma replace_first_absent old new l : old ∉ l → replace_first old new l = l.
Proof. intros Hnin. unfold replace_first. by rewrite scan_misses. Qed.

Lemma replace_first_perm old new l :
  old ∈ l → ∃ k, l ≡ₚ old :: k ∧ replace_first old new l ≡ₚ new :: k.
Proof.
  intros (i & Hi & ->)%(replace_first_found old new). by apply insert_swaps_head.
Qed.

Lemma pop_snoc l x : pop (l ++ [x]) = l.
Proof.
  unfold pop. rewrite length_app. simpl.
  replace (length l + 1 - 1) with (length l) by lia. apply take_app_length.
Qed.

(** [removeMetadata]'s scan, when the identifier is in the array: the array
    loses exactly that occurrence. *)
Lemma swap_remove_perm c l : c ∈ l → l ≡ₚ c :: swap_remove c l.
Proof.
  intros (i & Hfind & Hi)%scan_finds. unfold swap_remove. rewrite Hfind. clear Hfind.
  destruct l as [|x0 l0] using rev_ind; [done|]. clear IHl0.
  rename l0 into l1, x0 into z.
  replace (length (l1 ++ [z]) - 1) with (length l1) by (rewrite length_app; simpl; lia).
  rewrite lookup_app_r, Nat.sub_diag by lia. simpl.
  apply lookup_snoc_Some in Hi as [[Hlt Hi]|[-> ->]].
  - rewrite insert_app_l by done.
    rewrite pop_snoc.
    destruct (insert_swaps_head l1 i c z Hi) as (k & Hl1 & ->).
    rewrite Hl1. rewrite <- Permutation_cons_append. by rewrite (Permutation_swap z c k).
  - rewrite list_insert_id by (rewrite lookup_app_r, Nat.sub_diag by lia; done).
    rewrite pop_snoc. by rewrite <- Permutation_cons_append.
Qed.

Lemma swap_remove_absent c l : c ∉ l → swap_remove c l = l.
Proof. intros Hnin. unfold swap_remove. by rewrite scan_misses. Qed.

(** On an array without repetitions, [swap_remove] keeps every identifier but
    the removed one. *)
Lemma swap_remove_elem_of c l x :
  NoDup l → x ∈ swap_remove c l ↔ x ∈ l ∧ x ≠ c.
Proof.
  intros Hnd. destruct (decide (c ∈ l)) as [Hin|Hnin].
  - pose proof (swap_remove_perm c l Hin) as Hp.
    remember (swap_remove c l) as k eqn:Hk. clear Hk.
    rewrite Hp in Hnd. apply NoDup_cons in Hnd as [Hc _].
    rewrite Hp, elem_of_cons. split.
    + intros Hx. split; [by right|]. by intros ->.
    + by intros [[->|Hx] Hne].
  - rewrite swap_remove_absent by done. split; [|by intros [? _]].
    intros Hx. split; [done|]. by intros ->.
Qed.

Lemma swap_remove_NoDup c l : NoDup l → NoDup (swap_remove c l).
Proof.
  intros Hnd. destruct (decide (c ∈ l)) as [Hin|Hnin].
  - pose proof (swap_remove_perm c l Hin) as Hp.
    remember (swap_remove c l) as k eqn:Hk. clear Hk.
    rewrite Hp in Hnd. by apply NoDup_cons in Hnd as [_ ?].
  - by rewrite swap_remove_absent.
Qed.

End scans.

(** ** What each call does

    Each mutating function checks all its [require]s before its first write,
    so the state at a revert is the state the call started in. *)

Section runs.
Implicit Types (e : Env) (st : State).

(* Walks down the [require]s of a call: both sides branch on the same tests. *)
Local Ltac walk_requires :=
  repeat (match goal with
          | |- context [if ?b then _ else _] => destruct b
          end; [|reflexivity]);
  reflexivity.

Lemma nonempty_true s : nonempty s = true ↔ s ≠ "".
Proof.
  unfold nonempty. rewrite bool_decide_eq_true.
  destruct s; simpl; split; intros; (done || lia).
Qed.

Lemma storeMetadata_run e c h n u st :
  storeMetadata e c h n u st =
    if nonempty c then
      if nonempty h then
        if bool_decide ((cidToOwner st).[c] = address0) then
          if bool_decide ((hashToCID st).[h] = "") then
            Done tt
              {| userMetadataCIDs :=
                   <[msg_sender e := (userMetadataCIDs st).[msg_sender e] ++ [c]]>
                     (userMetadataCIDs st);
                 hashToCID := <[h := c]> (hashToCID st);
                 cidToOwner := <[c := msg_sender e]> (cidToOwner st);
                 cidToMetadataInfo :=
                   <[c := {| cid := c; hash := h; timestamp := block_timestamp e;
                             nftName := n; imageURI := u |}]> (cidToMetadataInfo st);
                 events :=
                   events st ++ [MetadataStored (msg_sender e) c h n (block_timestamp e)] |}
          else Reverted "Hash already exists" st
        else Reverted "CID already registered" st
      else Reverted "Hash cannot be empty" st
    else Reverted "CID cannot be empty" st.
Proof.
  unfold storeMetadata, mbind, tx_bind, bind, require, gets, emit, modify.
  walk_requires.
Qed.

Lemma updateMetadata_run e old new h n u st :
  updateMetadata e old new h n u st =
    if bool_decide ((cidToOwner st).[old] = msg_sender e) then
      if nonempty new then
        if nonempty h then
          if bool_decide ((cidToOwner st).[new] = address0) then
            if bool_decide ((hashToCID st).[h] = "") then
              Done tt
                {| userMetadataCIDs :=
                     <[msg_sender e :=
                         replace_first old new (userMetadataCIDs st).[msg_sender e]]>
                       (userMetadataCIDs st);
                   hashToCID :=
                     <[h := new]>
                       (delete (hash (cidToMetadataInfo st).[old]) (hashToCID st));
                   cidToOwner := <[new := msg_sender e]> (delete old (cidToOwner st));
                   cidToMetadataInfo :=
                     <[new := {| cid := new; hash := h; timestamp := block_timestamp e;
                                 nftName := n; imageURI := u |}]>
                       (delete old (cidToMetadataInfo st));
                   events := events st ++ [MetadataUpdated (msg_sender e) old new h] |}
            else Reverted "New hash already exists" st
          else Reverted "New CID already registered" st
        else Reverted "Hash cannot be empty" st
      else Reverted "New CID cannot be empty" st
    else Reverted "Not the owner of this metadata" st.
Proof.
  unfold updateMetadata, mbind, tx_bind, bind, require, gets, emit, modify.
  walk_requires.
Qed.

Lemma removeMetadata_run e c st :
  removeMetadata e c st =
    if bool_decide ((cidToOwner st).[c] = msg_sender e) then
      Done tt
        {| userMetadataCIDs :=
             <[msg_sender e := swap_remove c (userMetadataCIDs st).[msg_sender e]]>
               (userMetadataCIDs st);
           hashToCID := delete (hash (cidToMetadataInfo st).[c]) (hashToCID st);
           cidToOwner := delete c (cidToOwner st);
           cidToMetadataInfo := delete c (cidToMetadataInfo st);
           events := events st ++ [MetadataRemoved (msg_sender e) c] |}
    else Reverted "Not the owner of this metadata" st.
Proof.
  unfold removeMetadata, mbind, tx_bind, bind, require, gets, emit, modify.
  walk_requires.
Qed.

Lemma getMetadataInfo_run c st :
  getMetadataInfo c st =
    if bool_decide ((cidToOwner st).[c] ≠ address0)
    then Done (cidToMetadataInfo st).[c] st
    else Reverted "Metadata does not exist" st.
Proof.
  unfold getMetadataInfo, mbind, tx_bind, bind, require, gets.
  walk_requires.
Qed.

End runs.

(** ** The invariant holds in every reachable state *)

Section invariant.
Implicit Types (e : Env) (st : State).

Local Ltac mget_norm :=
  repeat first
    [ rewrite mget_insert_eq | rewrite mget_insert_ne by done
    | rewrite mget_delete_eq | rewrite mget_delete_ne by done
    | rewrite lookup_insert_eq | rewrite lookup_insert_ne by done
    | rewrite lookup_delete_eq | rewrite lookup_delete_ne by done ].

Lemma empty_state_inv : registry_inv empty_state.
Proof.
  split; unfold active, has_record; simpl; intros.
  - rewrite mget_empty. by intros [].
  - rewrite mget_empty in *. by apply elem_of_nil in H.
  - by rewrite mget_empty in *.
  - rewrite mget_empty. apply NoDup_nil_2.
  - rewrite lookup_empty, mget_empty. split; [by intros [? ?]|by intros []].
  - rewrite !mget_empty. split; [by intros [<- ?]|by intros [[] _]].
Qed.

Lemma storeMetadata_inv e c h n u st st' :
  registry_inv st →
  msg_sender e ≠ address0 →
  storeMetadata e c h n u st = Done tt st' →
  registry_inv st'.
Proof.
  intros Hinv Hsender. rewrite storeMetadata_run.
  destruct (nonempty c) eqn:Hc; [|done]. apply nonempty_true in Hc.
  destruct (nonempty h) eqn:Hh; [|done]. apply nonempty_true in Hh.
  do 2 (case_bool_decide; [|done]). intros [= <-].
  rename H into Hfree, H0 into Hnew.
  assert (Hnotin : ∀ u, c ∉ (userMetadataCIDs st).[u]).
  { intros u' [Hu' Hown]%(inv_listed st Hinv). congruence. }
  split; unfold active, has_record; simpl.
  - mget_norm. apply (inv_empty_cid st Hinv).
  - intros u' id.
    destruct (decide (msg_sender e = u')) as [<-|Hne]; mget_norm.
    + intros [Hin| ->%list_elem_of_singleton]%elem_of_app.
      * pose proof (inv_listed st Hinv _ _ Hin) as [? ?].
        destruct (decide (c = id)) as [->|]; [congruence|]. by mget_norm.
      * by mget_norm.
    + intros Hin. pose proof (inv_listed st Hinv _ _ Hin) as [? ?].
      destruct (decide (c = id)) as [->|]; [congruence|]. by mget_norm.
  - intros id. destruct (decide (c = id)) as [<-|Hne]; mget_norm.
    + intros _. apply elem_of_app. right. by apply list_elem_of_singleton.
    + intros Hact. pose proof (inv_owned st Hinv id Hact) as Hin.
      destruct (decide (msg_sender e = (cidToOwner st).[id])) as [Heq|]; mget_norm; [|done].
      rewrite <- Heq in *. mget_norm. apply elem_of_app. by left.
  - intros u'. destruct (decide (msg_sender e = u')) as [<-|Hne]; mget_norm.
    + apply NoDup_app. split_and!.
      * apply (inv_nodup st Hinv).
      * intros x Hx ->%list_elem_of_singleton. by apply (Hnotin (msg_sender e)).
      * apply NoDup_singleton.
    + apply (inv_nodup st Hinv).
  - intros id. destruct (decide (c = id)) as [<-|Hne]; mget_norm.
    + split; [done|]. by eexists.
    + apply (inv_record st Hinv).
  - intros h' id.
    pose proof (inv_hash st Hinv h' id) as Hold.
    pose proof (inv_hash st Hinv h c) as Hc'.
    pose proof (inv_hash st Hinv h id) as Hh'.
    unfold active in *.
    destruct (decide (h = h')) as [<-|Hneh];
      destruct (decide (c = id)) as [<-|Hnec]; mget_norm; simpl.
    + naive_solver.
    + split; [naive_solver|]. intros Hr. apply Hh' in Hr as [? ?]. congruence.
    + split; [|naive_solver]. intros Hl. apply Hold in Hl as [? _]. congruence.
    + done.
Qed.

Lemma updateMetadata_inv e old new h n u st st' :
  registry_inv st →
  msg_sender e ≠ address0 →
  updateMetadata e old new h n u st = Done tt st' →
  registry_inv st'.
Proof.
  intros Hinv Hsender. rewrite updateMetadata_run.
  case_bool_decide as Hown; [|done].
  destruct (nonempty new) eqn:Hc; [|done]. apply nonempty_true in Hc.
  destruct (nonempty h) eqn:Hh; [|done]. apply nonempty_true in Hh.
  case_bool_decide as Hfree; [|done]. case_bool_decide as Hnew; [|done].
  intros [= <-].
  assert (Hact : active st old) by (unfold active; congruence).
  assert (Hne : old ≠ new) by congruence.
  assert (Hold0 : old ≠ "") by (intros ->; by apply (inv_empty_cid st Hinv)).
  assert (Hnotin : ∀ u, new ∉ (userMetadataCIDs st).[u]).
  { intros u' [Hu' Hown']%(inv_listed st Hinv). congruence. }
  pose proof (inv_owned st Hinv old Hact) as Hin. rewrite Hown in Hin.
  destruct (replace_first_perm old new _ Hin) as (k & Hp & Hp').
  pose proof (inv_nodup st Hinv (msg_sender e)) as Hnd.
  pose proof (Hnotin (msg_sender e)) as Hnotin_s.
  assert (Hlisted : ∀ id, id ∈ (userMetadataCIDs st).[msg_sender e] →
                          (cidToOwner st).[id] = msg_sender e).
  { intros id Hid. by apply (inv_listed st Hinv). }
  remember ((userMetadataCIDs st).[msg_sender e]) as A eqn:HA.
  remember (replace_first old new A) as A' eqn:HA'. clear HA'.
  rewrite Hp in Hnd, Hnotin_s. apply NoDup_cons in Hnd as [Hold_k Hnd_k].
  assert (Hk : ∀ id, id ∈ k → (cidToOwner st).[id] = msg_sender e ∧ id ≠ old ∧ id ≠ new).
  { intros id Hid. split_and!.
    - apply Hlisted. rewrite Hp. by right.
    - by intros ->.
    - intros ->. apply Hnotin_s. by right. }
  assert (Hhash_old : (hashToCID st).[hash (cidToMetadataInfo st).[old]] = old).
  { by apply (inv_hash st Hinv). }
  assert (Hneh : hash (cidToMetadataInfo st).[old] ≠ h) by congruence.
  split; unfold active, has_record; simpl.
  - mget_norm. apply (inv_empty_cid st Hinv).
  - intros u' id.
    destruct (decide (msg_sender e = u')) as [<-|Hneu]; mget_norm.
    + rewrite Hp'. intros [->|Hid]%elem_of_cons; [by mget_norm|].
      destruct (Hk id Hid) as (? & ? & ?). by mget_norm.
    + intros Hid. pose proof (inv_listed st Hinv _ _ Hid) as [? ?].
      assert (id ≠ new) by congruence. assert (id ≠ old) by congruence.
      by mget_norm.
  - intros id. destruct (decide (new = id)) as [<-|Hnen]; mget_norm.
    { intros _. rewrite Hp'. by left. }
    destruct (decide (old = id)) as [<-|Hneo]; mget_norm; [done|].
    intros Hact'. pose proof (inv_owned st Hinv id Hact') as Hid.
    destruct (decide (msg_sender e = (cidToOwner st).[id])) as [Heq|]; mget_norm; [|done].
    rewrite <- Heq in *. mget_norm. rewrite <- HA in Hid.
    rewrite Hp in Hid. rewrite Hp'. apply elem_of_cons in Hid as [->|Hid]; [done|].
    by right.
  - intros u'. destruct (decide (msg_sender e = u')) as [<-|Hneu]; mget_norm.
    + rewrite Hp'. apply NoDup_cons. split; [|done].
      intros Hnk. apply Hnotin_s. by right.
    + apply (inv_nodup st Hinv).
  - intros id. destruct (decide (new = id)) as [<-|Hnen]; mget_norm.
    { split; [done|]. by eexists. }
    destruct (decide (old = id)) as [<-|Hneo]; mget_norm.
    { split; [by intros [? ?]|done]. }
    apply (inv_record st Hinv).
  - intros h' id.
    pose proof (inv_hash st Hinv h' id) as Hh'id.
    pose proof (inv_hash st Hinv h' old) as Hh'old.
    pose proof (inv_hash st Hinv h id) as Hhid.
    unfold active in *.
    destruct (decide (h = h')) as [<-|Hneh'].
    { mget_norm. destruct (decide (new = id)) as [<-|Hnen]; mget_norm; [naive_solver|].
      split; [naive_solver|].
      destruct (decide (old = id)) as [<-|Hneo]; mget_norm; [naive_solver|].
      intros Hr. apply Hhid in Hr as [? ?]. congruence. }
    mget_norm.
    destruct (decide (new = id)) as [<-|Hnen]; mget_norm; simpl.
    { split; [|naive_solver].
      destruct (decide (hash (cidToMetadataInfo st).[old] = h')) as [<-|]; mget_norm;
        [naive_solver|].
      intros Hl. apply Hh'id in Hl as [? _]. congruence. }
    destruct (decide (old = id)) as [<-|Hneo]; mget_norm.
    { split; [|naive_solver].
      destruct (decide (hash (cidToMetadataInfo st).[old] = h')) as [<-|]; mget_norm;
        [naive_solver|].
      intros Hl. apply Hh'id in Hl as [_ ?]. congruence. }
    destruct (decide (hash (cidToMetadataInfo st).[old] = h')) as [<-|]; mget_norm;
      [|done].
    split; [naive_solver|].
    intros Hr. apply Hh'id in Hr as [? _]. congruence.
Qed.

Lemma removeMetadata_inv e c st st' :
  registry_inv st →
  msg_sender e ≠ address0 →
  removeMetadata e c st = Done tt st' →
  registry_inv st'.
Proof.
  intros Hinv Hsender. rewrite removeMetadata_run.
  case_bool_decide as Hown; [|done]. intros [= <-].
  assert (Hact : active st c) by (unfold active; congruence).
  assert (Hc0 : c ≠ "") by (intros ->; by apply (inv_empty_cid st Hinv)).
  pose proof (inv_nodup st Hinv (msg_sender e)) as Hnd.
  assert (Hhash_c : (hashToCID st).[hash (cidToMetadataInfo st).[c]] = c).
  { by apply (inv_hash st Hinv). }
  split; unfold active, has_record; simpl.
  - mget_norm. apply (inv_empty_cid st Hinv).
  - intros u' id.
    destruct (decide (msg_sender e = u')) as [<-|Hneu]; mget_norm.
    + intros [Hid Hne]%swap_remove_elem_of; [|done].
      pose proof (inv_listed st Hinv _ _ Hid) as [? ?]. by mget_norm.
    + intros Hid. pose proof (inv_listed st Hinv _ _ Hid) as [? ?].
      assert (c ≠ id) by congruence. by mget_norm.
  - intros id. destruct (decide (c = id)) as [<-|Hne]; mget_norm; [done|].
    intros Hact'. pose proof (inv_owned st Hinv id Hact') as Hid.
    destruct (decide (msg_sender e = (cidToOwner st).[id])) as [Heq|]; mget_norm; [|done].
    rewrite <- Heq in *. mget_norm. by apply swap_remove_elem_of.
  - intros u'. destruct (decide (msg_sender e = u')) as [<-|Hneu]; mget_norm.
    + by apply swap_remove_NoDup.
    + apply (inv_nodup st Hinv).
  - intros id. destruct (decide (c = id)) as [<-|Hne]; mget_norm.
    { split; [by intros [? ?]|done]. }
    apply (inv_record st Hinv).
  - intros h' id.
    pose proof (inv_hash st Hinv h' id) as Hh'id.
    unfold active in *.
    destruct (decide (c = id)) as [<-|Hne]; mget_norm.
    { split; [|naive_solver].
      destruct (decide (hash (cidToMetadataInfo st).[c] = h')) as [<-|]; mget_norm;
        [naive_solver|].
      intros Hl. apply Hh'id in Hl as [_ ?]. congruence. }
    destruct (decide (hash (cidToMetadataInfo st).[c] = h')) as [<-|]; mget_norm;
      [|done].
    split; [naive_solver|].
    intros Hr. apply Hh'id in Hr as [? _]. congruence.
Qed.

Lemma reachable_inv st : reachable st → registry_inv st.
Proof.
  induction 1 as [|st e c st' _ IH Hsender Hcall]; [apply empty_state_inv|].
  destruct c; simpl in Hcall.
  - by eapply storeMetadata_inv.
  - by eapply updateMetadata_inv.
  - by eapply removeMetadata_inv.
Qed.

End invariant.

(** ** The example state *)

Lemma st1_reachable : reachable Demo.st1.
Proof.
  apply (reachable_step empty_state Demo.at_100_alice
           (StoreMetadata "bafyAAA" "6f2c" "demo" "bafyIMG")).
  - apply reachable_empty.
  - done.
  - by vm_compute.
Qed.

(** ** Consistency of the three indices *)

(** C1.  In every state reachable from the deployed contract by successful
    store, update and remove transactions: an identifier has a record exactly
    when it has a non-zero owner, and it then occurs exactly once in that
    owner's array of [userMetadataCIDs]; [hashToCID] holds identifier [id] for
    hash [h] exactly when [id] has a record whose hash is [h]; and no two
    records have the same hash. *)
Theorem registry_indices_consistent st :
  reachable st →
  (∀ id, has_record st id ↔ active st id) ∧
  (∀ id, has_record st id →
     (cidToOwner st).[id] ≠ address0 ∧
     count_occ String.string_dec (userMetadataCIDs st).[(cidToOwner st).[id]] id = 1) ∧
  (∀ h id, (hashToCID st).[h] = id ∧ id ≠ "" ↔
           has_record st id ∧ hash (cidToMetadataInfo st).[id] = h) ∧
  (∀ id1 id2, has_record st id1 → has_record st id2 →
     hash (cidToMetadataInfo st).[id1] = hash (cidToMetadataInfo st).[id2] →
     id1 = id2).
Proof.
  intros Hinv%reachable_inv. split_and!.
  - apply (inv_record st Hinv).
  - intros id Hact%(inv_record st Hinv). split; [done|].
    apply NoDup_count_occ'; [apply NoDup_ListNoDup, (inv_nodup st Hinv)|].
    apply list_elem_of_In. by apply (inv_owned st Hinv).
  - intros h id. rewrite (inv_record st Hinv). apply (inv_hash st Hinv).
  - intros id1 id2 H1%(inv_record st Hinv) H2%(inv_record st Hinv) Heq.
    assert ((hashToCID st).[hash (cidToMetadataInfo st).[id1]] = id1) as Hl1
      by by apply (inv_hash st Hinv).
    assert ((hashToCID st).[hash (cidToMetadataInfo st).[id2]] = id2) as Hl2
      by by apply (inv_hash st Hinv).
    congruence.
Qed.

Lemma registry_indices_consistent_witness :
  reachable Demo.st1 ∧
  (cidToOwner Demo.st1).["bafyAAA"] ≠ address0 ∧
  count_occ String.string_dec
    (userMetadataCIDs Demo.st1).[(cidToOwner Demo.st1).["bafyAAA"]] "bafyAAA" = 1.
Proof.
  split; [exact st1_reachable|].
  destruct (registry_indices_consistent Demo.st1 st1_reachable) as (_ & Hocc & _).
  apply Hocc. vm_compute. by eexists.
Defined.

(** ** [storeMetadata] *)

Lemma not_active st id : ¬ active st id ↔ (cidToOwner st).[id] = address0.
Proof.
  unfold active. split; [|by intros -> ?].
  intros Hn. by destruct (decide ((cidToOwner st).[id] = address0)).
Qed.

Lemma not_hash_known st h : ¬ hash_known st h ↔ (hashToCID st).[h] = "".
Proof.
  unfold hash_known. split; [|by intros -> ?].
  intros Hn. by destruct (decide ((hashToCID st).[h] = "")).
Qed.

(** The state [storeMetadata] writes when all four [require]s pass. *)
Lemma storeMetadata_accepts e id h n u st :
  id ≠ "" → h ≠ "" →
  ¬ active st id → ¬ hash_known st h →
  ∃ st', storeMetadata e id h n u st = Done tt st' ∧
    userMetadataCIDs st'
      = <[msg_sender e := (userMetadataCIDs st).[msg_sender e] ++ [id]]>
          (userMetadataCIDs st) ∧
    hashToCID st' = <[h := id]> (hashToCID st) ∧
    cidToOwner st' = <[id := msg_sender e]> (cidToOwner st) ∧
    cidToMetadataInfo st'
      = <[id := {| cid := id; hash := h; timestamp := block_timestamp e;
                   nftName := n; imageURI := u |}]> (cidToMetadataInfo st).
Proof.
  intros Hid%nonempty_true Hh%nonempty_true Hfree%not_active Hnew%not_hash_known.
  eexists. split.
  - rewrite storeMetadata_run, Hid, Hh. by rewrite !bool_decide_eq_true_2.
  - done.
Qed.

(** C2.  A store of a non-empty identifier that is not registered, with a
    non-empty hash that is not in the hash index, succeeds; afterwards
    [getCIDByHash] of the hash is the identifier, [getMetadataInfo] of the
    identifier carries the hash, [getMetadataOwner] is the caller, and the
    caller's array is the old one with the identifier appended at its end. *)
Theorem store_registers e id h n u st :
  msg_sender e ≠ address0 →
  id ≠ "" → h ≠ "" →
  ¬ active st id → ¬ hash_known st h →
  ∃ st', storeMetadata e id h n u st = Done tt st' ∧
    getCIDByHash h st' = Done id st' ∧
    (∃ r, getMetadataInfo id st' = Done r st' ∧ hash r = h) ∧
    getMetadataOwner id st' = Done (msg_sender e) st' ∧
    getUserMetadataCIDs (msg_sender e) st' =
      Done ((userMetadataCIDs st).[msg_sender e] ++ [id]) st'.
Proof.
  intros Hsender Hid Hh Hfree Hnew.
  destruct (storeMetadata_accepts e id h n u st Hid Hh Hfree Hnew)
    as (st' & Hrun & Harr & Hhashes & Howners & Hinfos).
  exists st'. split; [done|]. split_and!.
  - unfold getCIDByHash, gets. by rewrite Hhashes, mget_insert_eq.
  - eexists. rewrite getMetadataInfo_run, Howners, Hinfos, !mget_insert_eq.
    by rewrite bool_decide_eq_true_2.
  - unfold getMetadataOwner, gets. by rewrite Howners, mget_insert_eq.
  - unfold getUserMetadataCIDs, gets. by rewrite Harr, mget_insert_eq.
Qed.

Lemma store_registers_witness :
  ∃ st', storeMetadata Demo.at_100_alice "bafyAAA" "6f2c" "demo" "bafyIMG" empty_state
           = Done tt st' ∧
         getCIDByHash "6f2c" st' = Done "bafyAAA" st' ∧
         getUserMetadataCIDs Demo.alice st' = Done ["bafyAAA"] st'.
Proof.
  destruct (store_registers Demo.at_100_alice "bafyAAA" "6f2c" "demo" "bafyIMG" empty_state)
    as (st' & Hrun & Hlookup & _ & _ & Hlist).
  - done.
  - done.
  - done.
  - apply not_active. reflexivity.
  - apply not_hash_known. reflexivity.
  - exists st'. split_and!; [exact Hrun|exact Hlookup|exact Hlist].
Defined.

(** C3, as stated, fails: with an empty identifier and a hash that is already
    in the hash index, [storeMetadata] reverts with ["CID cannot be empty"], a
    validation error and not a conflict: the emptiness checks come first. *)
Lemma store_empty_cid_known_hash :
  reachable Demo.st1 ∧
  hash_known Demo.st1 "6f2c" ∧
  storeMetadata Demo.at_200_bob "" "6f2c" "demo" "bafyIMG" Demo.st1
    = Reverted "CID cannot be empty" Demo.st1 ∧
  fails_with (storeMetadata Demo.at_200_bob "" "6f2c" "demo" "bafyIMG" Demo.st1)
    ValidationError ∧
  ¬ fails_with (storeMetadata Demo.at_200_bob "" "6f2c" "demo" "bafyIMG" Demo.st1)
      ConflictError.
Proof.
  split_and!.
  - exact st1_reachable.
  - by vm_compute.
  - by vm_compute.
  - exists "CID cannot be empty", Demo.st1. by vm_compute.
  - intros (reason & st_at & Hrun & Hkind).
    assert (reason = "CID cannot be empty") as -> by (vm_compute in Hrun; congruence).
    by vm_compute in Hkind.
Qed.

(** C3, amended.  [storeMetadata] fails with a validation error whenever the
    identifier or the hash is empty; when both are non-empty it fails with a
    conflict error whenever the identifier is registered or the hash is in the
    hash index; and whenever it fails, nothing had been written when it
    reverted, and the ledger keeps the state as it was. *)
Theorem store_rejects e id h n u st :
  (id = "" ∨ h = "" → fails_with (storeMetadata e id h n u st) ValidationError) ∧
  (id ≠ "" → h ≠ "" → active st id ∨ hash_known st h →
     fails_with (storeMetadata e id h n u st) ConflictError) ∧
  (∀ reason st_at,
     storeMetadata e id h n u st = Reverted reason st_at →
     st_at = st ∧ commit (storeMetadata e id h n u) st = st).
Proof.
  split_and!.
  - intros Hempty. rewrite storeMetadata_run.
    destruct (nonempty id) eqn:Hid.
    + destruct Hempty as [->| ->]; [done|]. simpl.
      by exists "Hash cannot be empty", st.
    + by exists "CID cannot be empty", st.
  - intros Hid%nonempty_true Hh%nonempty_true Hclash.
    rewrite storeMetadata_run, Hid, Hh.
    case_bool_decide as Hfree.
    + destruct Hclash as [Hact|Hknown]; [done|].
      rewrite bool_decide_eq_false_2 by done.
      by exists "Hash already exists", st.
    + by exists "CID already registered", st.
  - intros reason st_at Hrun. unfold commit. rewrite Hrun. split; [|done].
    rewrite storeMetadata_run in Hrun.
    repeat (match type of Hrun with
            | context [if ?b then _ else _] => destruct b
            end); congruence.
Qed.

Lemma store_rejects_witness :
  fails_with (storeMetadata Demo.at_200_bob "" "6f2c" "demo" "bafyIMG" Demo.st1)
    ValidationError ∧
  fails_with (storeMetadata Demo.at_200_bob "bafyAAA" "9a1b" "demo" "bafyIMG" Demo.st1)
    ConflictError ∧
  fails_with (storeMetadata Demo.at_200_bob "bafyBBB" "6f2c" "demo" "bafyIMG" Demo.st1)
    ConflictError ∧
  commit (storeMetadata Demo.at_200_bob "bafyBBB" "6f2c" "demo" "bafyIMG") Demo.st1
    = Demo.st1.
Proof.
  split_and!.
  - apply (store_rejects Demo.at_200_bob "" "6f2c" "demo" "bafyIMG" Demo.st1). by left.
  - apply (store_rejects Demo.at_200_bob "bafyAAA" "9a1b" "demo" "bafyIMG" Demo.st1);
      [done|done|]. left. by vm_compute.
  - apply (store_rejects Demo.at_200_bob "bafyBBB" "6f2c" "demo" "bafyIMG" Demo.st1);
      [done|done|]. right. by vm_compute.
  - eapply (store_rejects Demo.at_200_bob "bafyBBB" "6f2c" "demo" "bafyIMG" Demo.st1).
    by vm_compute.
Defined.

(** ** [updateMetadata] *)

(** C4, as stated, fails: the owner of ["bafyAAA"] calls [updateMetadata] with
    the new identifier equal to the old one and a non-empty hash that is not in
    the hash index, and the call reverts with ["New CID already registered"],
    a conflict error. *)
Lemma update_same_cid_conflicts :
  reachable Demo.st1 ∧
  (cidToOwner Demo.st1).["bafyAAA"] = msg_sender Demo.at_200_alice ∧
  ¬ hash_known Demo.st1 "9a1b" ∧
  updateMetadata Demo.at_200_alice "bafyAAA" "bafyAAA" "9a1b" "demo" "bafyIMG" Demo.st1
    = Reverted "New CID already registered" Demo.st1 ∧
  fails_with
    (updateMetadata Demo.at_200_alice "bafyAAA" "bafyAAA" "9a1b" "demo" "bafyIMG" Demo.st1)
    ConflictError.
Proof.
  split_and!.
  - exact st1_reachable.
  - by vm_compute.
  - apply not_hash_known. by vm_compute.
  - by vm_compute.
  - exists "New CID already registered", Demo.st1. by vm_compute.
Qed.

(** C4, amended.  When the caller owns [id] and the hash is non-empty, the call
    [updateMetadata(id, id, h, ...)] fails with a conflict error: the new
    identifier must not be registered, and the old identifier is.  The ledger
    keeps the state as it was. *)
Theorem update_same_cid_rejected e id h n u st :
  reachable st →
  msg_sender e ≠ address0 →
  (cidToOwner st).[id] = msg_sender e →
  h ≠ "" →
  updateMetadata e id id h n u st = Reverted "New CID already registered" st ∧
  fails_with (updateMetadata e id id h n u st) ConflictError ∧
  commit (updateMetadata e id id h n u) st = st.
Proof.
  intros Hinv%reachable_inv Hsender Hown Hh%nonempty_true.
  assert (Hid : nonempty id = true).
  { apply nonempty_true. intros ->. apply (inv_empty_cid st Hinv).
    unfold active. congruence. }
  assert (Hrun : updateMetadata e id id h n u st
                 = Reverted "New CID already registered" st).
  { rewrite updateMetadata_run, Hid, Hh.
    rewrite bool_decide_eq_true_2 by done.
    rewrite bool_decide_eq_false_2 by congruence. done. }
  split_and!; [done| |].
  - by exists "New CID already registered", st.
  - unfold commit. by rewrite Hrun.
Qed.

Lemma update_same_cid_rejected_witness :
  updateMetadata Demo.at_200_alice "bafyAAA" "bafyAAA" "9a1b" "demo" "bafyIMG" Demo.st1
    = Reverted "New CID already registered" Demo.st1 ∧
  commit (updateMetadata Demo.at_200_alice "bafyAAA" "bafyAAA" "9a1b" "demo" "bafyIMG")
    Demo.st1 = Demo.st1.
Proof.
  destruct (update_same_cid_rejected Demo.at_200_alice "bafyAAA" "9a1b" "demo" "bafyIMG"
              Demo.st1) as (Hrun & _ & Hcommit).
  - exact st1_reachable.
  - done.
  - by vm_compute.
  - done.
  - split; [exact Hrun|exact Hcommit].
Defined.

(** C5.  After a successful [updateMetadata(old, new, h, ...)] in a reachable
    state: [getCIDByHash] of the old record's hash is empty, [getCIDByHash] of
    [h] is [new], [getMetadataOwner] of [old] is [address(0)], and the caller's
    array holds [new] and not [old]: [old] was in the array, and the new array
    is the old one with [new] written at the position [old] had.  (The two
    identifiers are distinct whenever the call succeeds; and since [old] is
    always in the array, the case where it is not never arises.) *)
Theorem update_moves e old new h n u st st' :
  reachable st →
  msg_sender e ≠ address0 →
  updateMetadata e old new h n u st = Done tt st' →
  old ≠ new ∧
  getCIDByHash (hash (cidToMetadataInfo st).[old]) st' = Done "" st' ∧
  getCIDByHash h st' = Done new st' ∧
  getMetadataOwner old st' = Done address0 st' ∧
  new ∈ (userMetadataCIDs st').[msg_sender e] ∧
  (old ∉ (userMetadataCIDs st').[msg_sender e]) ∧
  ∃ i, ((userMetadataCIDs st).[msg_sender e]) !! i = Some old ∧
       (userMetadataCIDs st').[msg_sender e]
         = <[i:=new]> ((userMetadataCIDs st).[msg_sender e]).
Proof.
  intros Hreach Hsender Hrun.
  pose proof (reachable_inv st Hreach) as Hinv.
  assert (Hinv' : registry_inv st') by by eapply updateMetadata_inv.
  rewrite updateMetadata_run in Hrun.
  case_bool_decide as Hown; [|done].
  destruct (nonempty new) eqn:Hc; [|done].
  destruct (nonempty h) eqn:Hh; [|done].
  case_bool_decide as Hfree; [|done]. case_bool_decide as Hnew; [|done].
  injection Hrun as <-.
  assert (Hact : active st old) by (unfold active; congruence).
  assert (Hne : old ≠ new) by congruence.
  assert (Hold0 : old ≠ "") by (intros ->; by apply (inv_empty_cid st Hinv)).
  assert (Hhash_old : (hashToCID st).[hash (cidToMetadataInfo st).[old]] = old).
  { by apply (inv_hash st Hinv). }
  assert (Hneh : h ≠ hash (cidToMetadataInfo st).[old]) by congruence.
  pose proof (inv_owned st Hinv old Hact) as Hin. rewrite Hown in Hin.
  destruct (replace_first_found old new _ Hin) as (i & Hi & Hrepl).
  assert (Hafter_new : new ∈ <[i:=new]> (userMetadataCIDs st).[msg_sender e]).
  { apply list_elem_of_lookup. exists i.
    apply list_lookup_insert_eq. eauto using lookup_lt_Some. }
  split_and!; [done| | | | | |].
  - unfold getCIDByHash, gets. simpl.
    by rewrite mget_insert_ne, mget_delete_eq.
  - unfold getCIDByHash, gets. simpl. by rewrite mget_insert_eq.
  - unfold getMetadataOwner, gets. simpl.
    by rewrite mget_insert_ne, mget_delete_eq.
  - simpl. by rewrite mget_insert_eq, Hrepl.
  - intros [_ Hown']%(inv_listed _ Hinv'). revert Hown'. simpl.
    rewrite mget_insert_ne, mget_delete_eq by done. done.
  - exists i. split; [done|]. simpl. by rewrite mget_insert_eq.
Qed.

Lemma update_moves_witness :
  ∃ st', updateMetadata Demo.at_200_alice "bafyAAA" "bafyBBB" "9a1b" "demo" "bafyIMG"
           Demo.st1 = Done tt st' ∧
         getCIDByHash "6f2c" st' = Done "" st' ∧
         getCIDByHash "9a1b" st' = Done "bafyBBB" st' ∧
         getMetadataOwner "bafyAAA" st' = Done address0 st'.
Proof.
  eexists. split; [by vm_compute|].
  edestruct (update_moves Demo.at_200_alice "bafyAAA" "bafyBBB" "9a1b" "demo" "bafyIMG"
               Demo.st1) as (_ & Hold & Hnew & Howner & _).
  - exact st1_reachable.
  - done.
  - by vm_compute.
  - split_and!; [exact Hold|exact Hnew|exact Howner].
Defined.

(** ** [removeMetadata] *)

(** C6.  In a reachable state [removeMetadata(id)] succeeds exactly when the
    caller is the owner of [id].  When the caller is not, it fails with an
    authorization error and the ledger keeps the state as it was.  When the
    caller is, the entries of [id] are deleted from [cidToMetadataInfo],
    [cidToOwner] and [hashToCID], the caller's array is swap-removed and holds
    every identifier it held but [id]; afterwards [getMetadataInfo(id)] fails
    with a not-found error and [getCIDByHash] of the removed record's hash is
    empty. *)
Theorem remove_spec e id st :
  reachable st →
  ((∃ st', removeMetadata e id st = Done tt st') ↔ (cidToOwner st).[id] = msg_sender e) ∧
  ((cidToOwner st).[id] ≠ msg_sender e →
     removeMetadata e id st = Reverted "Not the owner of this metadata" st ∧
     fails_with (removeMetadata e id st) AuthorizationError ∧
     commit (removeMetadata e id) st = st) ∧
  ((cidToOwner st).[id] = msg_sender e →
     ∃ st', removeMetadata e id st = Done tt st' ∧
       cidToMetadataInfo st' !! id = None ∧
       cidToOwner st' !! id = None ∧
       hashToCID st' !! hash (cidToMetadataInfo st).[id] = None ∧
       (userMetadataCIDs st').[msg_sender e]
         = swap_remove id ((userMetadataCIDs st).[msg_sender e]) ∧
       (∀ x, x ∈ (userMetadataCIDs st').[msg_sender e] ↔
             x ∈ (userMetadataCIDs st).[msg_sender e] ∧ x ≠ id) ∧
       fails_with (getMetadataInfo id st') NotFoundError ∧
       getCIDByHash (hash (cidToMetadataInfo st).[id]) st' = Done "" st').
Proof.
  intros Hinv%reachable_inv. split_and!.
  - rewrite removeMetadata_run. case_bool_decide as Hown.
    + split; [done|]. intros _. by eexists.
    + split; [by intros [? ?]|done].
  - intros Hown.
    assert (Hrun : removeMetadata e id st
                   = Reverted "Not the owner of this metadata" st).
    { rewrite removeMetadata_run. by rewrite bool_decide_eq_false_2. }
    split_and!; [done| |].
    + by exists "Not the owner of this metadata", st.
    + unfold commit. by rewrite Hrun.
  - intros Hown. eexists. split.
    { rewrite removeMetadata_run. by rewrite bool_decide_eq_true_2. }
    simpl. split_and!.
    + apply lookup_delete_eq.
    + apply lookup_delete_eq.
    + apply lookup_delete_eq.
    + by rewrite mget_insert_eq.
    + intros x. rewrite mget_insert_eq.
      apply swap_remove_elem_of, (inv_nodup st Hinv).
    + exists "Metadata does not exist". eexists. split; [|done].
      rewrite getMetadataInfo_run. simpl. rewrite mget_delete_eq.
      by rewrite bool_decide_eq_false_2 by (by intros []).
    + unfold getCIDByHash, gets. simpl. by rewrite mget_delete_eq.
Qed.

Lemma remove_spec_witness :
  (∃ st', removeMetadata Demo.at_200_alice "bafyAAA" Demo.st1 = Done tt st' ∧
          (userMetadataCIDs st').[Demo.alice] = [] ∧
          fails_with (getMetadataInfo "bafyAAA" st') NotFoundError ∧
          getCIDByHash "6f2c" st' = Done "" st') ∧
  fails_with (removeMetadata Demo.at_200_bob "bafyAAA" Demo.st1) AuthorizationError ∧
  commit (removeMetadata Demo.at_200_bob "bafyAAA") Demo.st1 = Demo.st1.
Proof.
  split.
  - destruct (remove_spec Demo.at_200_alice "bafyAAA" Demo.st1 st1_reachable)
      as (_ & _ & Howner).
    destruct Howner as (st' & Hrun & _ & _ & _ & Harr & _ & Hget & Hhash);
      [by vm_compute|].
    exists st'. split_and!; [exact Hrun| |exact Hget|exact Hhash].
    change Demo.alice with (msg_sender Demo.at_200_alice). rewrite Harr. by vm_compute.
  - destruct (remove_spec Demo.at_200_bob "bafyAAA" Demo.st1 st1_reachable)
      as (_ & Hother & _).
    destruct Hother as (_ & Hfail & Hcommit); [by vm_compute|].
    split; [exact Hfail|exact Hcommit].
Defined.

(** ** [verifyMetadata] *)

(** C7.  [verifyMetadata(id, h)] never reverts and changes nothing; it returns
    true exactly when [id] is registered and [hashToCID] holds [id] for [h],
    and false in every other case. *)
Theorem verify_spec id h st :
  ∃ b, verifyMetadata id h st = Done b st ∧
       (b = true ↔ active st id ∧ (hashToCID st).[h] = id) ∧
       (b = false ↔ ¬ active st id ∨ (hashToCID st).[h] ≠ id).
Proof.
  eexists. split; [reflexivity|]. unfold active. split.
  - rewrite andb_true_iff, !bool_decide_eq_true. done.
  - rewrite andb_false_iff, !bool_decide_eq_false. done.
Qed.

(** On a reachable state this is the same as: [id] has a record, and the
    record's hash is [h]. *)
Lemma verify_matches_record id h st :
  reachable st →
  verifyMetadata id h st = Done true st ↔
  has_record st id ∧ hash (cidToMetadataInfo st).[id] = h.
Proof.
  intros Hinv%reachable_inv.
  rewrite (inv_record st Hinv), <- (inv_hash st Hinv).
  unfold verifyMetadata, mbind, tx_bind, bind, gets, mret, tx_ret, ret, active.
  split.
  - intros [= [Hact Hslot]%andb_true_iff].
    apply bool_decide_eq_true in Hact, Hslot. split; [done|].
    intros ->. by apply (inv_empty_cid st Hinv).
  - intros [Hslot Hid]. f_equal. apply andb_true_iff.
    rewrite !bool_decide_eq_true. split; [|done].
    by apply (inv_hash st Hinv h id).
Qed.

(** ** Registering an identifier again *)

(** C8.  Removal leaves no tombstone.  In a reachable state, the owner's
    [removeMetadata(id)] succeeds and leaves [id] unregistered; a following
    [storeMetadata(id, h, ...)] by any caller, the former owner or another,
    with a non-empty hash that is not in the hash index then, succeeds, and
    [id] is registered again, owned by that caller. *)
Theorem reregister_after_remove e1 e2 id h n u st :
  reachable st →
  msg_sender e1 ≠ address0 →
  msg_sender e2 ≠ address0 →
  (cidToOwner st).[id] = msg_sender e1 →
  h ≠ "" →
  ∃ st1, removeMetadata e1 id st = Done tt st1 ∧
    ¬ active st1 id ∧
    (¬ hash_known st1 h →
       ∃ st2, storeMetadata e2 id h n u st1 = Done tt st2 ∧
         reachable st2 ∧
         active st2 id ∧
         getMetadataOwner id st2 = Done (msg_sender e2) st2 ∧
         ∃ r, getMetadataInfo id st2 = Done r st2 ∧ hash r = h).
Proof.
  intros Hreach Hs1 Hs2 Hown Hh.
  pose proof (reachable_inv st Hreach) as Hinv.
  assert (Hid : id ≠ "").
  { intros ->. apply (inv_empty_cid st Hinv). unfold active. congruence. }
  assert (Hrun1 : ∃ st1, removeMetadata e1 id st = Done tt st1 ∧
                         (cidToOwner st1).[id] = address0).
  { eexists. rewrite removeMetadata_run, bool_decide_eq_true_2 by done.
    split; [done|]. simpl. by rewrite mget_delete_eq. }
  destruct Hrun1 as (st1 & Hrun1 & Hgone%not_active).
  assert (Hreach1 : reachable st1).
  { by apply (reachable_step st e1 (RemoveMetadata id)). }
  exists st1. split_and!; [done..|].
  intros Hfresh.
  destruct (storeMetadata_accepts e2 id h n u st1 Hid Hh Hgone Hfresh)
    as (st2 & Hrun2 & _ & _ & Howners & Hinfos).
  exists st2. split_and!; [done| | | |].
  - by apply (reachable_step st1 e2 (StoreMetadata id h n u)).
  - unfold active. by rewrite Howners, mget_insert_eq.
  - unfold getMetadataOwner, gets. by rewrite Howners, mget_insert_eq.
  - eexists. rewrite getMetadataInfo_run, Howners, Hinfos, !mget_insert_eq.
    by rewrite bool_decide_eq_true_2.
Qed.

Lemma reregister_after_remove_witness :
  ∃ st1 st2,
    removeMetadata Demo.at_200_alice "bafyAAA" Demo.st1 = Done tt st1 ∧
    storeMetadata Demo.at_200_bob "bafyAAA" "9a1b" "demo" "bafyIMG" st1 = Done tt st2 ∧
    getMetadataOwner "bafyAAA" st2 = Done Demo.bob st2.
Proof.
  destruct (reregister_after_remove Demo.at_200_alice Demo.at_200_bob
              "bafyAAA" "9a1b" "demo" "bafyIMG" Demo.st1)
    as (st1 & Hrun1 & _ & Hstore).
  - exact st1_reachable.
  - done.
  - done.
  - by vm_compute.
  - done.
  - destruct Hstore as (st2 & Hrun2 & _ & _ & Howner & _).
    + apply not_hash_known.
      assert (st1 = commit (removeMetadata Demo.at_200_alice "bafyAAA") Demo.st1) as ->.
      { unfold commit. by rewrite Hrun1. }
      by vm_compute.
    + exists st1, st2. split_and!; [exact Hrun1|exact Hrun2|exact Howner].
Defined.

(** ** The timestamp of an updated record *)

(** C10.  After a successful [updateMetadata(old, new, h, ...)] the record of
    [new] carries the ledger time of the update transaction; the timestamp of
    the record of [old] is not carried over, so whenever the two times differ
    the new record's timestamp differs from the old record's. *)
Theorem update_stamps_ledger_time e old new h n u st st' :
  msg_sender e ≠ address0 →
  updateMetadata e old new h n u st = Done tt st' →
  ∃ r, getMetadataInfo new st' = Done r st' ∧
       timestamp r = block_timestamp e ∧
       (timestamp (cidToMetadataInfo st).[old] ≠ block_timestamp e →
        timestamp r ≠ timestamp (cidToMetadataInfo st).[old]).
Proof.
  intros Hsender. rewrite updateMetadata_run.
  repeat (match goal with
          | |- context [if ?b then _ else _] => destruct b
          end; [|done]).
  intros [= <-]. eexists. split_and!.
  - rewrite getMetadataInfo_run. simpl. rewrite !mget_insert_eq.
    by rewrite bool_decide_eq_true_2.
  - done.
  - simpl. congruence.
Qed.

Lemma update_stamps_ledger_time_witness :
  timestamp (cidToMetadataInfo Demo.st1).["bafyAAA"] = 100%N ∧
  ∃ st' r,
    updateMetadata Demo.at_200_alice "bafyAAA" "bafyBBB" "9a1b" "demo" "bafyIMG" Demo.st1
      = Done tt st' ∧
    getMetadataInfo "bafyBBB" st' = Done r st' ∧
    timestamp r = 200%N.
Proof.
  split; [by vm_compute|].
  eexists.
  edestruct (update_stamps_ledger_time Demo.at_200_alice
               "bafyAAA" "bafyBBB" "9a1b" "demo" "bafyIMG" Demo.st1)
    as (r & Hget & Hstamp & _).
  - done.
  - by vm_compute.
  - exists r. split_and!; [reflexivity|exact Hget|exact Hstamp].
Defined.

(** ** [uploadFileToIPFS] when the explicit pin request fails *)

(** C9, as stated, fails: against a client that accepts the upload and refuses
    the pin request, [uploadFileToIPFS] resolves to a result whose [pinned] is
    true, not false. *)
Lemma upload_pin_refused_reports_pinned :
  IpfsService.pin_add Demo.no_pin_client "bafyFILE" = inl "pin refused" ∧
  IpfsService.uploadFileToIPFS Demo.no_pin_service Demo.two_bytes false =
    ([(IpfsService.WARN, "Warning: Could not explicitly pin the file: pin refused")],
     inr {| IpfsService.cid := "bafyFILE";
            IpfsService.path := "a.png";
            IpfsService.size := 2;
            IpfsService.gateway := "http://localhost:8080/ipfs/bafyFILE";
            IpfsService.pinned := true |}) ∧
  ¬ ∃ r, snd (IpfsService.uploadFileToIPFS Demo.no_pin_service Demo.two_bytes false)
           = inr r ∧
         IpfsService.pinned r = false.
Proof.
  split_and!; [reflexivity..|].
  intros (r & Hr & Hpinned). vm_compute in Hr.
  injection Hr as <-. discriminate Hpinned.
Qed.

(** C9, amended.  When the upload succeeds and the explicit pin request fails,
    [uploadFileToIPFS] does not reject: it writes one warning to the console
    and resolves to the upload's identifier, path and size, with the gateway
    address, and with [pinned] true. *)
Theorem upload_survives_pin_failure s client file onProgress buffer result pinError :
  IpfsService.ipfs s = Some client →
  IpfsService.arrayBuffer file = inr buffer →
  IpfsService.add client (IpfsService.file_name file) buffer
    {| IpfsService.opt_progress := onProgress; IpfsService.opt_pin := true |}
    = inr result →
  IpfsService.pin_add client (IpfsService.res_cid result) = inl pinError →
  IpfsService.uploadFileToIPFS s file onProgress =
    ([(IpfsService.WARN,
       ("Warning: Could not explicitly pin the file: " ++ pinError)%string)],
     inr {| IpfsService.cid := IpfsService.res_cid result;
            IpfsService.path := IpfsService.res_path result;
            IpfsService.size := IpfsService.res_size result;
            IpfsService.gateway :=
              (IpfsService.ipfsGateway s ++ "/" ++ IpfsService.res_cid result)%string;
            IpfsService.pinned := true |}).
Proof.
  intros Hclient Hbuffer Hadd Hpin. unfold IpfsService.uploadFileToIPFS.
  by rewrite Hclient, Hbuffer, Hadd, Hpin.
Qed.

Lemma upload_survives_pin_failure_witness :
  ∃ r, snd (IpfsService.uploadFileToIPFS Demo.no_pin_service Demo.two_bytes false) = inr r ∧
       IpfsService.cid r = "bafyFILE" ∧
       IpfsService.size r = 2%N ∧
       IpfsService.pinned r = true.
Proof.
  eexists. split.
  - rewrite (upload_survives_pin_failure Demo.no_pin_service Demo.no_pin_client
               Demo.two_bytes false [Byte.x00; Byte.x01]
               {| IpfsService.res_cid := "bafyFILE";
                  IpfsService.res_path := "a.png";
                  IpfsService.res_size := 2 |}
               "pin refused"); [|reflexivity..].
    reflexivity.
  - split_and!; reflexivity.
Defined.

(** * Further properties of the registry *)

(** ** Records are stored under their own identifier *)

Section well_formed_records.
Implicit Types (e : Env) (st : State).

Lemma reachable_record_wf st : reachable st → record_wf st.
Proof.
  induction 1 as [|st e c st' _ IH Hsender Hcall].
  { intros id r. simpl. by rewrite lookup_empty. }
  destruct c as [c h n u|old new h n u|c]; simpl in Hcall.
  - rewrite storeMetadata_run in Hcall.
    destruct (nonempty c) eqn:Hc; [|done]. apply nonempty_true in Hc.
    destruct (nonempty h) eqn:Hh; [|done]. apply nonempty_true in Hh.
    do 2 (case_bool_decide; [|done]). injection Hcall as <-.
    intros id' r'. simpl. destruct (decide (c = id')) as [<-|Hne].
    + rewrite lookup_insert_eq. by intros [= <-].
    + rewrite lookup_insert_ne by done. apply IH.
  - rewrite updateMetadata_run in Hcall.
    case_bool_decide; [|done].
    destruct (nonempty new) eqn:Hc; [|done]. apply nonempty_true in Hc.
    destruct (nonempty h) eqn:Hh; [|done]. apply nonempty_true in Hh.
    do 2 (case_bool_decide; [|done]). injection Hcall as <-.
    intros id' r'. simpl. destruct (decide (new = id')) as [<-|Hne].
    + rewrite lookup_insert_eq. by intros [= <-].
    + rewrite lookup_insert_ne by done.
      intros [_ Hold]%lookup_delete_Some. by apply IH.
  - rewrite removeMetadata_run in Hcall.
    case_bool_decide; [|done]. injection Hcall as <-.
    intros id' r'. simpl. intros [_ Hold]%lookup_delete_Some. by apply IH.
Qed.

End well_formed_records.

(** X2.  In a reachable state, the record [getMetadataInfo(id)] returns names
    [id] in its [cid] field, neither [id] nor the record's hash is empty, and
    [getCIDByHash] of the record's hash leads back to [id]. *)
Theorem stored_record_wf st id r :
  reachable st →
  getMetadataInfo id st = Done r st →
  cid r = id ∧ id ≠ "" ∧ hash r ≠ "" ∧
  getCIDByHash (hash r) st = Done id st.
Proof.
  intros Hreach. pose proof (reachable_inv st Hreach) as Hinv.
  pose proof (reachable_record_wf st Hreach) as Hwf.
  rewrite getMetadataInfo_run. case_bool_decide as Hact; [|done]. intros [= <-].
  pose proof Hact as [r Hr]%(inv_record st Hinv).
  unfold mget at 1 2 3. rewrite Hr. simpl.
  destruct (Hwf id r Hr) as (Hcid & Hid & Hh). split_and!; [done..|].
  unfold getCIDByHash, gets. f_equal.
  apply (inv_hash st Hinv). split; [done|]. unfold mget. by rewrite Hr.
Qed.

Lemma stored_record_wf_witness :
  ∃ r, getMetadataInfo "bafyAAA" Demo.st1 = Done r Demo.st1 ∧
       cid r = "bafyAAA" ∧
       getCIDByHash (hash r) Demo.st1 = Done "bafyAAA" Demo.st1.
Proof.
  destruct (stored_record_wf Demo.st1 "bafyAAA"
              ((cidToMetadataInfo Demo.st1).["bafyAAA"]) st1_reachable)
    as (Hcid & _ & _ & Hback); [by vm_compute|].
  eexists. split_and!; [by vm_compute|exact Hcid|exact Hback].
Defined.

(** ** The arrays list exactly what their owner owns *)

(** X1.  In a reachable state, [getUserMetadataCIDs(u)] has no repetitions and
    holds exactly the identifiers whose [getMetadataOwner] is [u]; for
    [address(0)] it is empty.  So an array never lists an identifier that is
    unregistered or that belongs to another account. *)
Theorem owned_list_exact st u :
  reachable st →
  ∃ l, getUserMetadataCIDs u st = Done l st ∧
       NoDup l ∧
       (u = address0 → l = []) ∧
       (∀ id, id ∈ l ↔ u ≠ address0 ∧ getMetadataOwner id st = Done u st).
Proof.
  intros Hinv%reachable_inv. eexists. split; [reflexivity|]. split_and!.
  - apply (inv_nodup st Hinv).
  - intros ->. destruct ((userMetadataCIDs st).[address0]) as [|x l] eqn:Hl; [done|].
    destruct (inv_listed st Hinv address0 x) as [Hne _]; [rewrite Hl; by left|].
    by destruct Hne.
  - intros id. unfold getMetadataOwner, gets. split.
    + intros [Hu Hown]%(inv_listed st Hinv). split; [done|]. by rewrite Hown.
    + intros [Hu [= Hown]]. rewrite <- Hown. apply (inv_owned st Hinv).
      unfold active. by rewrite Hown.
Qed.

Lemma owned_list_exact_witness :
  ∃ l, getUserMetadataCIDs Demo.bob Demo.st1 = Done l Demo.st1 ∧
       "bafyAAA" ∉ l.
Proof.
  destruct (owned_list_exact Demo.st1 Demo.bob st1_reachable)
    as (l & Hrun & _ & _ & Hexact).
  exists l. split; [exact Hrun|].
  intros [_ Hown]%Hexact. by vm_compute in Hown.
Defined.

(** ** Empty keys *)

(** X3.  In a reachable state nothing is registered under the empty
    identifier or the empty hash: [getMetadataOwner("")] is [address(0)],
    [getMetadataInfo("")] fails with a not-found error, [getCIDByHash("")] is
    empty, and [verifyMetadata] is false as soon as one of its arguments is
    empty. *)
Theorem empty_keys_unregistered st :
  reachable st →
  getMetadataOwner "" st = Done address0 st ∧
  fails_with (getMetadataInfo "" st) NotFoundError ∧
  getCIDByHash "" st = Done "" st ∧
  (∀ id h, id = "" ∨ h = "" → verifyMetadata id h st = Done false st).
Proof.
  intros Hreach. pose proof (reachable_inv st Hreach) as Hinv.
  pose proof (reachable_record_wf st Hreach) as Hwf.
  assert (Hno_owner : (cidToOwner st).[""] = address0).
  { apply not_active, (inv_empty_cid st Hinv). }
  assert (Hno_hash : (hashToCID st).[""] = "").
  { destruct (decide ((hashToCID st).[""] = "")) as [|Hne]; [done|].
    destruct (inv_hash st Hinv "" ((hashToCID st).[""])) as [Hl _].
    destruct Hl as [Hact Hh]; [done|].
    apply (inv_record st Hinv) in Hact as [r Hr].
    unfold mget in Hh at 1. rewrite Hr in Hh. simpl in Hh.
    by destruct (Hwf _ r Hr) as (_ & _ & []). }
  split_and!.
  - unfold getMetadataOwner, gets. by rewrite Hno_owner.
  - exists "Metadata does not exist", st. split; [|done].
    rewrite getMetadataInfo_run, Hno_owner. by rewrite bool_decide_eq_false_2 by (by intros []).
  - unfold getCIDByHash, gets. by rewrite Hno_hash.
  - intros id h Hempty.
    unfold verifyMetadata, mbind, tx_bind, bind, gets, mret, tx_ret, ret. f_equal.
    apply andb_false_iff. rewrite !bool_decide_eq_false.
    destruct Hempty as [->| ->].
    + left. intros Hact. by apply Hact.
    + destruct (decide (id = "")) as [->|Hid].
      * left. intros Hact. by apply Hact.
      * right. by rewrite Hno_hash.
Qed.

Lemma empty_keys_unregistered_witness :
  getCIDByHash "" Demo.st1 = Done "" Demo.st1 ∧
  verifyMetadata "bafyAAA" "" Demo.st1 = Done false Demo.st1.
Proof.
  destruct (empty_keys_unregistered Demo.st1 st1_reachable) as (_ & _ & Hhash & Hverify).
  split; [exact Hhash|]. apply Hverify. by right.
Defined.

(** ** What a successful call has checked and written *)

Section successful_calls.
Implicit Types (e : Env) (st : State).

Lemma storeMetadata_Done e c h n u st st' :
  storeMetadata e c h n u st = Done tt st' →
  c ≠ "" ∧ h ≠ "" ∧ (cidToOwner st).[c] = address0 ∧ (hashToCID st).[h] = "" ∧
  userMetadataCIDs st'
    = <[msg_sender e := (userMetadataCIDs st).[msg_sender e] ++ [c]]>
        (userMetadataCIDs st) ∧
  hashToCID st' = <[h := c]> (hashToCID st) ∧
  cidToOwner st' = <[c := msg_sender e]> (cidToOwner st) ∧
  cidToMetadataInfo st'
    = <[c := {| cid := c; hash := h; timestamp := block_timestamp e;
                nftName := n; imageURI := u |}]> (cidToMetadataInfo st) ∧
  events st' = events st ++ [MetadataStored (msg_sender e) c h n (block_timestamp e)].
Proof.
  rewrite storeMetadata_run.
  destruct (nonempty c) eqn:Hc; [|done]. apply nonempty_true in Hc.
  destruct (nonempty h) eqn:Hh; [|done]. apply nonempty_true in Hh.
  do 2 (case_bool_decide; [|done]). by intros [= <-].
Qed.

Lemma updateMetadata_Done e old new h n u st st' :
  updateMetadata e old new h n u st = Done tt st' →
  (cidToOwner st).[old] = msg_sender e ∧ new ≠ "" ∧ h ≠ "" ∧
  (cidToOwner st).[new] = address0 ∧ (hashToCID st).[h] = "" ∧
  userMetadataCIDs st'
    = <[msg_sender e := replace_first old new (userMetadataCIDs st).[msg_sender e]]>
        (userMetadataCIDs st) ∧
  hashToCID st'
    = <[h := new]> (delete (hash (cidToMetadataInfo st).[old]) (hashToCID st)) ∧
  cidToOwner st' = <[new := msg_sender e]> (delete old (cidToOwner st)) ∧
  cidToMetadataInfo st'
    = <[new := {| cid := new; hash := h; timestamp := block_timestamp e;
                  nftName := n; imageURI := u |}]> (delete old (cidToMetadataInfo st)) ∧
  events st' = events st ++ [MetadataUpdated (msg_sender e) old new h].
Proof.
  rewrite updateMetadata_run.
  case_bool_decide; [|done].
  destruct (nonempty new) eqn:Hc; [|done]. apply nonempty_true in Hc.
  destruct (nonempty h) eqn:Hh; [|done]. apply nonempty_true in Hh.
  do 2 (case_bool_decide; [|done]). by intros [= <-].
Qed.

Lemma removeMetadata_Done e c st st' :
  removeMetadata e c st = Done tt st' →
  (cidToOwner st).[c] = msg_sender e ∧
  userMetadataCIDs st'
    = <[msg_sender e := swap_remove c (userMetadataCIDs st).[msg_sender e]]>
        (userMetadataCIDs st) ∧
  hashToCID st' = delete (hash (cidToMetadataInfo st).[c]) (hashToCID st) ∧
  cidToOwner st' = delete c (cidToOwner st) ∧
  cidToMetadataInfo st' = delete c (cidToMetadataInfo st) ∧
  events st' = events st ++ [MetadataRemoved (msg_sender e) c].
Proof.
  rewrite removeMetadata_run. case_bool_decide; [|done]. by intros [= <-].
Qed.

(** The hash of a registered identifier leads back to it, so two registered
    identifiers never have the same hash. *)
Lemma hash_of_registered st id :
  registry_inv st → active st id →
  (hashToCID st).[hash (cidToMetadataInfo st).[id]] = id ∧ id ≠ "".
Proof. intros Hinv Hact. by apply (inv_hash st Hinv). Qed.

End successful_calls.

(** ** A call touches only the caller's entries *)

(** X4.  A successful transaction changes nothing that belongs to another
    account: the array of every other account is as before, and every
    identifier registered to another account keeps its owner and its record,
    and [hashToCID] still holds it for its hash. *)
Theorem others_untouched e c st st' :
  reachable st →
  msg_sender e ≠ address0 →
  call e c st = Done tt st' →
  (∀ u, u ≠ msg_sender e →
     (userMetadataCIDs st').[u] = (userMetadataCIDs st).[u]) ∧
  (∀ id, active st id → (cidToOwner st).[id] ≠ msg_sender e →
     (cidToOwner st').[id] = (cidToOwner st).[id] ∧
     (cidToMetadataInfo st').[id] = (cidToMetadataInfo st).[id] ∧
     (hashToCID st').[hash (cidToMetadataInfo st).[id]] = id).
Proof.
  intros Hinv%reachable_inv Hsender Hcall.
  destruct c as [c h n u|old new h n u|c]; simpl in Hcall.
  - apply storeMetadata_Done in Hcall
      as (Hc & Hh & Hfree & Hnew & -> & -> & -> & -> & _).
    split; [intros u' Hu'; by rewrite mget_insert_ne|].
    intros id Hact Hother.
    destruct (hash_of_registered st id Hinv Hact) as [Hback Hid].
    assert (c ≠ id) by (intros ->; by apply Hact).
    assert (h ≠ hash (cidToMetadataInfo st).[id]) by congruence.
    by rewrite !mget_insert_ne.
  - apply updateMetadata_Done in Hcall
      as (Hown & Hc & Hh & Hfree & Hnew & -> & -> & -> & -> & _).
    split; [intros u' Hu'; by rewrite mget_insert_ne|].
    intros id Hact Hother.
    destruct (hash_of_registered st id Hinv Hact) as [Hback Hid].
    assert (Hact_old : active st old) by (unfold active; congruence).
    destruct (hash_of_registered st old Hinv Hact_old) as [Hback_old _].
    assert (new ≠ id) by (intros ->; by apply Hact).
    assert (old ≠ id) by congruence.
    assert (h ≠ hash (cidToMetadataInfo st).[id]) by congruence.
    assert (hash (cidToMetadataInfo st).[old] ≠ hash (cidToMetadataInfo st).[id])
      by congruence.
    by rewrite !mget_insert_ne, !mget_delete_ne.
  - apply removeMetadata_Done in Hcall as (Hown & -> & -> & -> & -> & _).
    split; [intros u' Hu'; by rewrite mget_insert_ne|].
    intros id Hact Hother.
    destruct (hash_of_registered st id Hinv Hact) as [Hback Hid].
    assert (Hact_c : active st c) by (unfold active; congruence).
    destruct (hash_of_registered st c Hinv Hact_c) as [Hback_c _].
    assert (c ≠ id) by congruence.
    assert (hash (cidToMetadataInfo st).[c] ≠ hash (cidToMetadataInfo st).[id])
      by congruence.
    by rewrite !mget_delete_ne.
Qed.

Lemma others_untouched_witness :
  ∃ st', call Demo.at_200_bob (StoreMetadata "bafyBBB" "9a1b" "two" "bafyIMG2") Demo.st1
           = Done tt st' ∧
         (userMetadataCIDs st').[Demo.alice] = (userMetadataCIDs Demo.st1).[Demo.alice] ∧
         (cidToOwner st').["bafyAAA"] = (cidToOwner Demo.st1).["bafyAAA"] ∧
         (hashToCID st').[hash (cidToMetadataInfo Demo.st1).["bafyAAA"]] = "bafyAAA".
Proof.
  eexists. split; [by vm_compute|].
  edestruct (others_untouched Demo.at_200_bob
               (StoreMetadata "bafyBBB" "9a1b" "two" "bafyIMG2") Demo.st1)
    as [Hlists Hids].
  - exact st1_reachable.
  - done.
  - by vm_compute.
  - assert (Hact : active Demo.st1 "bafyAAA") by by vm_compute.
    assert (Hother : (cidToOwner Demo.st1).["bafyAAA"] ≠ msg_sender Demo.at_200_bob)
      by by vm_compute.
    pose proof (Hids "bafyAAA" Hact Hother) as (Hown & _ & Hhash).
    split_and!; [by apply Hlists|exact Hown|exact Hhash].
Defined.

(** X5.  A call never edits a record in place: an identifier that is
    registered before a successful call and still registered after it has the
    same owner and the same record.  Ownership and content change only by
    removing the identifier or replacing it with a new one. *)
Theorem registered_record_immutable e c st st' id :
  call e c st = Done tt st' →
  active st id → active st' id →
  (cidToOwner st').[id] = (cidToOwner st).[id] ∧
  (cidToMetadataInfo st').[id] = (cidToMetadataInfo st).[id].
Proof.
  intros Hcall Hact. unfold active.
  destruct c as [c h n u|old new h n u|c]; simpl in Hcall.
  - apply storeMetadata_Done in Hcall as (_ & _ & Hfree & _ & _ & _ & -> & -> & _).
    assert (c ≠ id) by (intros ->; by apply Hact).
    by rewrite !mget_insert_ne.
  - apply updateMetadata_Done in Hcall
      as (Hown & _ & _ & Hfree & _ & _ & _ & -> & -> & _).
    assert (new ≠ id) by (intros ->; by apply Hact).
    rewrite !mget_insert_ne by done.
    destruct (decide (old = id)) as [->|Hne]; [by rewrite mget_delete_eq|].
    by rewrite !mget_delete_ne.
  - apply removeMetadata_Done in Hcall as (_ & _ & _ & -> & -> & _).
    destruct (decide (c = id)) as [->|Hne]; [by rewrite mget_delete_eq|].
    by rewrite !mget_delete_ne.
Qed.

Lemma registered_record_immutable_witness :
  ∃ st', call Demo.at_200_bob (StoreMetadata "bafyBBB" "9a1b" "two" "bafyIMG2") Demo.st1
           = Done tt st' ∧
         (cidToMetadataInfo st').["bafyAAA"] = (cidToMetadataInfo Demo.st1).["bafyAAA"].
Proof.
  eexists. split; [by vm_compute|].
  eapply (registered_record_immutable Demo.at_200_bob
            (StoreMetadata "bafyBBB" "9a1b" "two" "bafyIMG2") Demo.st1).
  - by vm_compute.
  - by vm_compute.
  - by vm_compute.
Defined.

(** ** Every way [updateMetadata] can end *)

(** X6.  [updateMetadata] checks ownership first, then emptiness, then
    uniqueness: a caller who does not own [old] gets an authorization error
    whatever the other arguments are; the owner gets a validation error for an
    empty new identifier or hash, and otherwise a conflict error when the new
    identifier is registered or the hash is in the hash index.  The call
    succeeds exactly when none of these applies, and whenever it fails nothing
    had been written and the ledger keeps the state. *)
Theorem update_outcomes e old new h n u st :
  ((cidToOwner st).[old] ≠ msg_sender e →
     fails_with (updateMetadata e old new h n u st) AuthorizationError) ∧
  ((cidToOwner st).[old] = msg_sender e → new = "" ∨ h = "" →
     fails_with (updateMetadata e old new h n u st) ValidationError) ∧
  ((cidToOwner st).[old] = msg_sender e → new ≠ "" → h ≠ "" →
     active st new ∨ hash_known st h →
     fails_with (updateMetadata e old new h n u st) ConflictError) ∧
  ((∃ st', updateMetadata e old new h n u st = Done tt st') ↔
     (cidToOwner st).[old] = msg_sender e ∧ new ≠ "" ∧ h ≠ "" ∧
     ¬ active st new ∧ ¬ hash_known st h) ∧
  (∀ reason st_at,
     updateMetadata e old new h n u st = Reverted reason st_at →
     st_at = st ∧ commit (updateMetadata e old new h n u) st = st).
Proof.
  split_and!.
  - intros Hown. rewrite updateMetadata_run, bool_decide_eq_false_2 by done.
    by exists "Not the owner of this metadata", st.
  - intros Hown Hempty. rewrite updateMetadata_run, bool_decide_eq_true_2 by done.
    destruct (nonempty new) eqn:Hnew.
    + destruct Hempty as [->| ->]; [done|]. simpl.
      by exists "Hash cannot be empty", st.
    + by exists "New CID cannot be empty", st.
  - intros Hown Hnew%nonempty_true Hh%nonempty_true Hclash.
    rewrite updateMetadata_run, bool_decide_eq_true_2, Hnew, Hh by done.
    case_bool_decide as Hfree.
    + destruct Hclash as [Hact|Hknown]; [done|].
      rewrite bool_decide_eq_false_2 by done.
      by exists "New hash already exists", st.
    + by exists "New CID already registered", st.
  - rewrite not_active, not_hash_known. split.
    + intros [st' Hrun]. apply updateMetadata_Done in Hrun. tauto.
    + intros (Hown & Hnew%nonempty_true & Hh%nonempty_true & Hfree & Hfresh).
      eexists. rewrite updateMetadata_run, Hnew, Hh.
      by rewrite !bool_decide_eq_true_2.
  - intros reason st_at Hrun. unfold commit. rewrite Hrun. split; [|done].
    rewrite updateMetadata_run in Hrun.
    repeat (match type of Hrun with
            | context [if ?b then _ else _] => destruct b
            end); congruence.
Qed.

Lemma update_outcomes_witness :
  fails_with
    (updateMetadata Demo.at_200_bob "bafyAAA" "" "" "demo" "bafyIMG" Demo.st1)
    AuthorizationError ∧
  fails_with
    (updateMetadata Demo.at_200_alice "bafyAAA" "bafyBBB" "" "demo" "bafyIMG" Demo.st1)
    ValidationError ∧
  fails_with
    (updateMetadata Demo.at_200_alice "bafyAAA" "bafyBBB" "6f2c" "demo" "bafyIMG" Demo.st1)
    ConflictError.
Proof.
  split_and!.
  - apply (update_outcomes Demo.at_200_bob "bafyAAA" "" "" "demo" "bafyIMG" Demo.st1).
    by vm_compute.
  - apply (update_outcomes Demo.at_200_alice "bafyAAA" "bafyBBB" "" "demo" "bafyIMG"
             Demo.st1); [by vm_compute|by right].
  - apply (update_outcomes Demo.at_200_alice "bafyAAA" "bafyBBB" "6f2c" "demo" "bafyIMG"
             Demo.st1); [by vm_compute|done|done|]. right. by vm_compute.
Defined.

(** ** Storing and removing again *)

Lemma swap_remove_snoc c (l : list string) : c ∉ l → swap_remove c (l ++ [c]) = l.
Proof.
  intros Hnin. unfold swap_remove.
  rewrite list_find_app_r by by apply scan_misses. simpl.
  rewrite decide_True by done. simpl.
  replace (length (l ++ [c]) - 1) with (length l) by (rewrite length_app; simpl; lia).
  rewrite lookup_app_r, Nat.sub_diag by lia. simpl.
  rewrite list_insert_id by (rewrite lookup_app_r, Nat.sub_diag by lia; done).
  apply pop_snoc.
Qed.

(** X7.  In a reachable state, a store followed by the same caller's remove of
    the same identifier gives back what every getter returned before: the
    arrays, owners, hash lookups and records of all keys.  Only the event log
    has grown, by the two events. *)
Theorem store_then_remove_restores e e' id h n u st :
  reachable st →
  msg_sender e' = msg_sender e →
  id ≠ "" → h ≠ "" → ¬ active st id → ¬ hash_known st h →
  ∃ st1 st2,
    storeMetadata e id h n u st = Done tt st1 ∧
    removeMetadata e' id st1 = Done tt st2 ∧
    (∀ a, (userMetadataCIDs st2).[a] = (userMetadataCIDs st).[a]) ∧
    (∀ k, (hashToCID st2).[k] = (hashToCID st).[k]) ∧
    (∀ k, (cidToOwner st2).[k] = (cidToOwner st).[k]) ∧
    (∀ k, (cidToMetadataInfo st2).[k] = (cidToMetadataInfo st).[k]) ∧
    events st2 = events st ++
      [MetadataStored (msg_sender e) id h n (block_timestamp e);
       MetadataRemoved (msg_sender e) id].
Proof.
  intros Hreach Hsame Hid Hh Hfree Hfresh.
  pose proof (reachable_inv st Hreach) as Hinv.
  assert (Hinfo : (cidToMetadataInfo st).[id] = zero).
  { destruct (cidToMetadataInfo st !! id) as [r|] eqn:Hr; [|by unfold mget; rewrite Hr].
    destruct Hfree. apply (inv_record st Hinv). by exists r. }
  assert (Hnotin : id ∉ (userMetadataCIDs st).[msg_sender e]).
  { intros [Hne Hown]%(inv_listed st Hinv). apply Hfree. unfold active. congruence. }
  apply not_active in Hfree. apply not_hash_known in Hfresh.
  eexists. eexists. split.
  { rewrite storeMetadata_run.
    rewrite (proj2 (nonempty_true id) Hid), (proj2 (nonempty_true h) Hh).
    by rewrite !bool_decide_eq_true_2. }
  split.
  { rewrite removeMetadata_run. simpl. rewrite mget_insert_eq, Hsame.
    by rewrite bool_decide_eq_true_2. }
  simpl. rewrite ?Hsame, !mget_insert_eq. simpl. split_and!.
  - intros a. destruct (decide (msg_sender e = a)) as [<-|Hne].
    + by rewrite mget_insert_eq, swap_remove_snoc.
    + by rewrite !mget_insert_ne.
  - intros k. destruct (decide (h = k)) as [<-|Hne].
    + by rewrite mget_delete_eq.
    + by rewrite mget_delete_ne, mget_insert_ne.
  - intros k. destruct (decide (id = k)) as [<-|Hne].
    + by rewrite mget_delete_eq.
    + by rewrite mget_delete_ne, mget_insert_ne.
  - intros k. destruct (decide (id = k)) as [<-|Hne].
    + by rewrite mget_delete_eq.
    + by rewrite mget_delete_ne, mget_insert_ne.
  - by rewrite <- app_assoc.
Qed.

Lemma store_then_remove_restores_witness :
  ∃ st1 st2,
    storeMetadata Demo.at_200_bob "bafyBBB" "9a1b" "two" "bafyIMG2" Demo.st1
      = Done tt st1 ∧
    removeMetadata Demo.at_200_bob "bafyBBB" st1 = Done tt st2 ∧
    (userMetadataCIDs st2).[Demo.bob] = (userMetadataCIDs Demo.st1).[Demo.bob] ∧
    (hashToCID st2).["9a1b"] = (hashToCID Demo.st1).["9a1b"].
Proof.
  destruct (store_then_remove_restores Demo.at_200_bob Demo.at_200_bob
              "bafyBBB" "9a1b" "two" "bafyIMG2" Demo.st1)
    as (st1 & st2 & Hstore & Hremove & Hlists & Hhashes & _).
  - exact st1_reachable.
  - done.
  - done.
  - done.
  - apply not_active. by vm_compute.
  - apply not_hash_known. by vm_compute.
  - exists st1, st2. split_and!; [exact Hstore|exact Hremove|apply Hlists|apply Hhashes].
Defined.

(** ** After a removal *)



(** ** The event log accounts for the records *)

Section event_accounting.
Implicit Types (log : list Event) (p : Event → bool).

Lemma count_events_snoc p log ev :
  count_events p (log ++ [ev]) = count_events p log + (if p ev then 1 else 0).
Proof.
  unfold count_events. rewrite filter_app, length_app. f_equal.
  rewrite filter_cons, filter_nil. destruct (p ev); by case_decide.
Qed.

End event_accounting.

(** X9.  In a reachable state the log holds one [MetadataStored] event for
    every record and one more for every [MetadataRemoved] event: the number of
    records in [cidToMetadataInfo] is the number of stores minus the number of
    removals (an update leaves it as it is). *)
Theorem events_account_for_records st :
  reachable st →
  count_events is_stored (events st)
    = count_events is_removed (events st) + size (cidToMetadataInfo st).
Proof.
  induction 1 as [|st e c st' Hreach IH Hsender Hcall]; [done|].
  pose proof (reachable_inv st Hreach) as Hinv.
  assert (Hrecord : ∀ id, (cidToOwner st).[id] = address0 →
                          cidToMetadataInfo st !! id = None).
  { intros id Hzero. apply eq_None_not_Some.
    intros Hrec%(inv_record st Hinv). by apply Hrec. }
  assert (Hpresent : ∀ id, (cidToOwner st).[id] = msg_sender e →
                           is_Some (cidToMetadataInfo st !! id)).
  { intros id Hown. apply (inv_record st Hinv). unfold active. congruence. }
  destruct c as [c h n u|old new h n u|c]; simpl in Hcall.
  - apply storeMetadata_Done in Hcall
      as (_ & _ & Hfree & _ & _ & _ & _ & -> & ->).
    rewrite !count_events_snoc. simpl.
    rewrite map_size_insert_None by by apply Hrecord. lia.
  - apply updateMetadata_Done in Hcall
      as (Hown & _ & _ & Hfree & _ & _ & _ & _ & -> & ->).
    rewrite !count_events_snoc. simpl.
    assert (old ≠ new) by congruence.
    rewrite map_size_insert_None
      by (rewrite lookup_delete_ne by done; by apply Hrecord).
    rewrite map_size_delete_Some by by apply Hpresent.
    assert (size (cidToMetadataInfo st) ≠ 0).
    { intros Hsize%map_size_empty_inv. destruct (Hpresent old Hown) as [r Hr].
      by rewrite Hsize, lookup_empty in Hr. }
    lia.
  - apply removeMetadata_Done in Hcall as (Hown & _ & _ & _ & -> & ->).
    rewrite !count_events_snoc. simpl.
    rewrite map_size_delete_Some by by apply Hpresent.
    assert (size (cidToMetadataInfo st) ≠ 0).
    { intros Hsize%map_size_empty_inv. destruct (Hpresent c Hown) as [r Hr].
      by rewrite Hsize, lookup_empty in Hr. }
    lia.
Qed.

Lemma events_account_for_records_witness :
  reachable Demo.st1 ∧
  count_events is_stored (events Demo.st1) = 1 ∧
  count_events is_removed (events Demo.st1) + size (cidToMetadataInfo Demo.st1) = 1.
Proof.
  split; [exact st1_reachable|]. split; [by vm_compute|].
  rewrite <- (events_account_for_records Demo.st1 st1_reachable). by vm_compute.
Defined.

(** ** Where the identifiers sit after a removal *)

Lemma swap_remove_lookup c (l : list string) i :
  NoDup l → l !! i = Some c →
  length (swap_remove c l) = length l - 1 ∧
  ∀ j, j < length l - 1 →
       swap_remove c l !! j
         = if decide (j = i) then l !! (length l - 1) else l !! j.
Proof.
  intros Hnd Hi.
  destruct (scan_finds c l) as (i' & Hfind & Hi'); [by eapply list_elem_of_lookup_2|].
  assert (i' = i) as -> by by eapply NoDup_lookup.
  assert (Hlt : i < length l) by eauto using lookup_lt_Some.
  unfold swap_remove. rewrite Hfind. unfold pop. rewrite length_insert.
  split.
  - rewrite length_take, length_insert. lia.
  - intros j Hj. rewrite lookup_take_lt by done.
    destruct (lookup_lt_is_Some_2 l (length l - 1)) as [z Hz]; [lia|].
    rewrite Hz. simpl. rewrite list_lookup_insert.
    destruct (decide (j = i)) as [->|Hne].
    + by rewrite decide_True.
    + by rewrite decide_False by (intros [? _]; congruence).
Qed.

(** X10.  A successful [removeMetadata(id)] in a reachable state shortens the
    caller's array by one; the slot that held [id] now holds the identifier
    that was last, and every other remaining slot holds what it held. *)
Theorem remove_moves_last_into_slot e id st st' :
  reachable st →
  msg_sender e ≠ address0 →
  removeMetadata e id st = Done tt st' →
  ∃ i, ((userMetadataCIDs st).[msg_sender e]) !! i = Some id ∧
       length (userMetadataCIDs st').[msg_sender e]
         = length (userMetadataCIDs st).[msg_sender e] - 1 ∧
       ∀ j, j < length (userMetadataCIDs st').[msg_sender e] →
            ((userMetadataCIDs st').[msg_sender e]) !! j
              = if decide (j = i)
                then ((userMetadataCIDs st).[msg_sender e])
                       !! (length (userMetadataCIDs st).[msg_sender e] - 1)
                else ((userMetadataCIDs st).[msg_sender e]) !! j.
Proof.
  intros Hinv%reachable_inv Hsender (Hown & -> & _)%removeMetadata_Done.
  rewrite mget_insert_eq.
  assert (Hin : id ∈ (userMetadataCIDs st).[msg_sender e]).
  { rewrite <- Hown. apply (inv_owned st Hinv). unfold active. congruence. }
  apply list_elem_of_lookup in Hin as [i Hi]. exists i. split; [done|].
  destruct (swap_remove_lookup id _ i (inv_nodup st Hinv (msg_sender e)) Hi)
    as [Hlen Hslots].
  split; [done|]. intros j Hj. apply Hslots. lia.
Qed.

Lemma st3_reachable : reachable Demo.st3.
Proof.
  apply (reachable_step Demo.st2 Demo.at_200_alice
           (StoreMetadata "bafyCCC" "c3d4" "three" "bafyIMG3")); [|done|by vm_compute].
  apply (reachable_step Demo.st1 Demo.at_200_alice
           (StoreMetadata "bafyBBB" "9a1b" "two" "bafyIMG2")); [|done|by vm_compute].
  exact st1_reachable.
Qed.

Lemma remove_moves_last_into_slot_witness :
  (userMetadataCIDs Demo.st3).[Demo.alice] = ["bafyAAA"; "bafyBBB"; "bafyCCC"] ∧
  (userMetadataCIDs (commit (removeMetadata Demo.at_200_alice "bafyAAA") Demo.st3)).[Demo.alice]
    = ["bafyCCC"; "bafyBBB"] ∧
  ∃ i, ((userMetadataCIDs Demo.st3).[Demo.alice]) !! i = Some "bafyAAA" ∧
       length (userMetadataCIDs
                 (commit (removeMetadata Demo.at_200_alice "bafyAAA") Demo.st3)).[Demo.alice]
         = length (userMetadataCIDs Demo.st3).[Demo.alice] - 1.
Proof.
  split; [by vm_compute|]. split; [by vm_compute|].
  assert (Hrun : removeMetadata Demo.at_200_alice "bafyAAA" Demo.st3
                 = Done tt (commit (removeMetadata Demo.at_200_alice "bafyAAA") Demo.st3))
    by by vm_compute.
  assert (Hsender : msg_sender Demo.at_200_alice ≠ address0) by done.
  pose proof (remove_moves_last_into_slot _ _ _ _ st3_reachable Hsender Hrun)
    as (i & Hi & Hlen & _).
  exists i. split; [exact Hi|exact Hlen].
Defined.

(** * Properties of the IPFS service *)

(** ** The digest in hexadecimal *)

Section hexadecimal.
Import IpfsService.
Implicit Types (b : Byte.byte) (d : list Byte.byte).

(** Every byte is written as two lower-case hexadecimal digits, from which it
    can be read back. *)
Lemma hex_of_byte_shape b :
  ∃ c1 c2,
    padStart 2 "0" (toString16 (Byte.to_N b)) = String c1 (String c2 "") ∧
    lower_hex_digit c1 ∧ lower_hex_digit c2.
Proof.
  destruct b; eexists _, _; (split; [vm_compute; reflexivity|]);
    unfold lower_hex_digit; split; apply (bool_decide_unpack _); vm_compute; exact I.
Qed.

Lemma hex_of_byte_decode b :
  Byte.of_N (HexString.Raw.to_N (padStart 2 "0" (toString16 (Byte.to_N b))) 0) = Some b.
Proof. destruct b; vm_compute; reflexivity. Qed.

Lemma hashHex_nil : hashHex [] = "".
Proof. reflexivity. Qed.

Lemma hashHex_cons b d :
  hashHex (b :: d) = (padStart 2 "0" (toString16 (Byte.to_N b)) ++ hashHex d)%string.
Proof.
  unfold hashHex. simpl. destruct d as [|b' d]; [|reflexivity].
  simpl. destruct (hex_of_byte_shape b) as (c1 & c2 & -> & _). reflexivity.
Qed.

Lemma hashHex_injective_aux d1 : ∀ d2, hashHex d1 = hashHex d2 → d1 = d2.
Proof.
  induction d1 as [|b1 d1 IH]; intros [|b2 d2].
  - done.
  - rewrite hashHex_nil, hashHex_cons.
    destruct (hex_of_byte_shape b2) as (c1 & c2 & -> & _). discriminate.
  - rewrite hashHex_nil, hashHex_cons.
    destruct (hex_of_byte_shape b1) as (c1 & c2 & -> & _). discriminate.
  - rewrite !hashHex_cons.
    pose proof (hex_of_byte_decode b1) as Hb1. pose proof (hex_of_byte_decode b2) as Hb2.
    destruct (hex_of_byte_shape b1) as (c1 & c2 & Hs1 & _).
    destruct (hex_of_byte_shape b2) as (c1' & c2' & Hs2 & _).
    rewrite Hs1 in *. rewrite Hs2 in *. simpl. intros [= -> -> Hrest].
    f_equal; [congruence|by apply IH].
Qed.

Lemma hashHex_format d :
  String.length (hashHex d) = 2 * length d ∧
  Forall lower_hex_digit (String.list_ascii_of_string (hashHex d)).
Proof.
  induction d as [|b d [IHlen IHdigits]]; [split; [done|constructor]|].
  rewrite hashHex_cons.
  destruct (hex_of_byte_shape b) as (c1 & c2 & -> & Hc1 & Hc2).
  remember (hashHex d) as rest eqn:Hrest. clear Hrest.
  change (String c1 (String c2 "") ++ rest)%string with (String c1 (String c2 rest)).
  simpl. split.
  - rewrite IHlen. lia.
  - apply Forall_cons. split; [done|]. apply Forall_cons. by split.
Qed.

End hexadecimal.

(** X11.  When the digest function answers, [generateSHA256Hash] prints
    nothing and resolves to a string of two characters per digest byte, all of
    them among [0-9a-f]; for the 32 bytes of a SHA-256 digest these are 64
    characters. *)
Theorem generateSHA256Hash_format subtle_digest content digest :
  subtle_digest
    (match content with
     | inl text => String.list_byte_of_string text
     | inr bytes => bytes
     end) = inr digest →
  ∃ hex,
    IpfsService.generateSHA256Hash subtle_digest content = ([], inr hex) ∧
    String.length hex = 2 * length digest ∧
    Forall IpfsService.lower_hex_digit (String.list_ascii_of_string hex).
Proof.
  intros Hdigest. exists (IpfsService.hashHex digest).
  unfold IpfsService.generateSHA256Hash. rewrite Hdigest.
  split; [done|]. apply hashHex_format.
Qed.

Lemma generateSHA256Hash_format_witness :
  IpfsService.generateSHA256Hash Demo.short_digest (inl "bafyAAA") = ([], inr "00ff") ∧
  ∃ hex, IpfsService.generateSHA256Hash Demo.short_digest (inl "bafyAAA") = ([], inr hex) ∧
         String.length hex = 4.
Proof.
  split; [reflexivity|].
  destruct (generateSHA256Hash_format Demo.short_digest (inl "bafyAAA")
              [Byte.x00; Byte.xff] eq_refl) as (hex & Hrun & Hlen & _).
  exists hex. split; [exact Hrun|exact Hlen].
Defined.

(** X12.  The hexadecimal writing loses nothing: two digests that
    [generateSHA256Hash] writes as the same string are the same bytes. *)
Theorem hashHex_injective d1 d2 :
  IpfsService.hashHex d1 = IpfsService.hashHex d2 → d1 = d2.
Proof. apply hashHex_injective_aux. Qed.

Lemma hashHex_injective_witness :
  IpfsService.hashHex [Byte.x0a; Byte.xff] = "0aff" ∧
  [Byte.x0a; Byte.xff] = rev [Byte.xff; Byte.x0a].
Proof.
  split; [reflexivity|].
  apply (hashHex_injective [Byte.x0a; Byte.xff] (rev [Byte.xff; Byte.x0a])).
  reflexivity.
Defined.

(** ** When an upload is rejected *)

(** X13.  [uploadFileToIPFS] rejects in exactly three cases, each time with
    the error at hand: the client is not initialised, reading the file throws,
    or [ipfs.add] throws.  What [ipfs.pin.add] answers never decides it. *)
Theorem uploadFile_rejects_iff s file onProgress error :
  snd (IpfsService.uploadFileToIPFS s file onProgress) = inl error ↔
  (IpfsService.ipfs s = None ∧
   error = (if IpfsService.PROD s
            then "IPFS client not initialized. For production environments, ensure you have access to an IPFS node or try running your own node."
            else "IPFS client not initialized. Call initializeIPFS first.")) ∨
  (∃ client, IpfsService.ipfs s = Some client ∧
     (IpfsService.arrayBuffer file = inl error ∨
      ∃ buffer, IpfsService.arrayBuffer file = inr buffer ∧
        IpfsService.add client (IpfsService.file_name file) buffer
          {| IpfsService.opt_progress := onProgress; IpfsService.opt_pin := true |}
          = inl error)).
Proof.
  unfold IpfsService.uploadFileToIPFS.
  destruct (IpfsService.ipfs s) as [client|].
  - destruct (IpfsService.arrayBuffer file) as [e|buffer] eqn:Hbuffer; simpl.
    + split; [intros [= ->]; right; eauto|].
      intros [[? _]|(c & _ & [[= ->]|(b & ? & _)])]; done.
    + destruct (IpfsService.add client _ buffer _) as [e|result] eqn:Hadd; simpl.
      * split; [intros [= ->]; right; exists client; split; [done|]; right; eauto|].
        intros [[? _]|(c & [= <-] & [?|(b & [= <-] & Hadd')])]; [done..|]. congruence.
      * split; [done|].
        intros [[? _]|(c & [= <-] & [?|(b & [= <-] & Hadd')])]; [done..|]. congruence.
  - destruct (IpfsService.PROD s); simpl.
    + split; [intros [= <-]; by left|]. intros [[_ ->]|(c & ? & _)]; done.
    + split; [intros [= <-]; by left|]. intros [[_ ->]|(c & ? & _)]; done.
Qed.

(** X14.  [uploadJSONToIPFS] rejects in exactly three cases, each time with
    the error at hand: the client is not initialised, [JSON.stringify] throws,
    or [ipfs.add] throws.  Whenever [ipfs.add] answers, the call resolves to
    that answer's identifier, path and size with [pinned] true, whatever
    [ipfs.pin.add] does. *)
Theorem uploadJSON_outcome s stringify :
  (∀ error,
     snd (IpfsService.uploadJSONToIPFS s stringify) = inl error ↔
     (IpfsService.ipfs s = None ∧
      error = "IPFS client not initialized. Call initializeIPFS first.") ∨
     (∃ client, IpfsService.ipfs s = Some client ∧
        (stringify = inl error ∨
         ∃ jsonString, stringify = inr jsonString ∧
           IpfsService.add client "metadata.json" (String.list_byte_of_string jsonString)
             {| IpfsService.opt_progress := false; IpfsService.opt_pin := true |}
             = inl error))) ∧
  (∀ client jsonString result,
     IpfsService.ipfs s = Some client →
     stringify = inr jsonString →
     IpfsService.add client "metadata.json" (String.list_byte_of_string jsonString)
       {| IpfsService.opt_progress := false; IpfsService.opt_pin := true |}
       = inr result →
     snd (IpfsService.uploadJSONToIPFS s stringify) =
       inr {| IpfsService.cid := IpfsService.res_cid result;
              IpfsService.path := IpfsService.res_path result;
              IpfsService.size := IpfsService.res_size result;
              IpfsService.gateway :=
                (IpfsService.ipfsGateway s ++ "/" ++ IpfsService.res_cid result)%string;
              IpfsService.pinned := true |}).
Proof.
  unfold IpfsService.uploadJSONToIPFS. split.
  - intros error. destruct (IpfsService.ipfs s) as [client|].
    + destruct stringify as [e|jsonString]; simpl.
      * split; [intros [= ->]; right; eauto|].
        intros [[? _]|(c & _ & [[= ->]|(j & ? & _)])]; done.
      * destruct (IpfsService.add client _ _ _) as [e|result] eqn:Hadd; simpl.
        -- split; [intros [= ->]; right; exists client; split; [done|]; right; eauto|].
           intros [[? _]|(c & [= <-] & [?|(j & [= <-] & Hadd')])]; [done..|]. congruence.
        -- split; [done|].
           intros [[? _]|(c & [= <-] & [?|(j & [= <-] & Hadd')])]; [done..|]. congruence.
    + simpl. split; [intros [= <-]; by left|]. intros [[_ ->]|(c & ? & _)]; done.
  - intros client jsonString result -> -> Hadd. by rewrite Hadd.
Qed.

Lemma uploadJSON_outcome_witness :
  ∃ r, snd (IpfsService.uploadJSONToIPFS Demo.no_pin_service (inr "{}")) = inr r ∧
       IpfsService.cid r = "bafyFILE" ∧
       IpfsService.pinned r = true.
Proof.
  destruct (uploadJSON_outcome Demo.no_pin_service (inr "{}")) as [_ Hresolves].
  eexists. split.
  - apply (Hresolves Demo.no_pin_client "{}"
             {| IpfsService.res_cid := "bafyFILE";
                IpfsService.res_path := "metadata.json";
                IpfsService.res_size := 2 |}); reflexivity.
  - split; reflexivity.
Defined.

(** ** Initialising the client *)

(** X15.  [initializeIPFS] returns true exactly when creating the client
    succeeded.  The gateway address is switched to the requested one in both
    cases; the client is replaced only on success, so after a failed call the
    module keeps the client it had (or none). *)
Theorem initializeIPFS_outcome create env config s :
  let apiUrl :=
    default ("http://" ++ IpfsService.or_else (IpfsService.VITE_IPFS_API_HOST env) "localhost"
               ++ ":" ++ IpfsService.or_else (IpfsService.VITE_IPFS_API_PORT env) "5001"
               ++ "/api/v0")%string
            (IpfsService.ipfsApiUrl config) in
  let gatewayUrl :=
    default (IpfsService.or_else (IpfsService.VITE_IPFS_GATEWAY env)
               "http://localhost:8080/ipfs")
            (IpfsService.ipfsGatewayUrl config) in
  let after := fst (snd (IpfsService.initializeIPFS create env config s)) in
  let ok := snd (snd (IpfsService.initializeIPFS create env config s)) in
  IpfsService.ipfsGateway after = gatewayUrl ∧
  (ok = true ↔ ∃ client, create apiUrl = inr client) ∧
  (∀ client, create apiUrl = inr client → IpfsService.ipfs after = Some client) ∧
  (ok = false → IpfsService.ipfs after = IpfsService.ipfs s).
Proof.
  unfold IpfsService.initializeIPFS. simpl.
  destruct (create _) as [error|client]; simpl.
  - split_and!; [done| |done|done]. split; [done|]. by intros [? ?].
  - split_and!; [done| |by intros ? [= ->]|done]. split; [|done]. by exists client.
Qed.

(** ** Pinning *)

Section pinning.
Import IpfsService.
Implicit Types (s : Service) (cid : string).

Lemma scan_pins_found cid items ending :
  cid ∈ items → scan_pins cid items ending = resolve true.
Proof.
  induction 1 as [x l|x y l Hin IH]; simpl.
  - by rewrite bool_decide_eq_true_2.
  - case_bool_decide; [done|apply IH].
Qed.

Lemma scan_pins_missed cid items ending :
  cid ∉ items →
  scan_pins cid items ending
    = match ending with Some error => reject error | None => resolve false end.
Proof.
  induction items as [|x l IH]; [done|]. intros Hnin. simpl.
  apply not_elem_of_cons in Hnin as [Hne Hnin].
  rewrite bool_decide_eq_false_2 by congruence. by apply IH.
Qed.

(** With a client, [isPinned] sends one listing request and nothing else. *)
Lemma isPinned_initialised s client pin_ls cid :
  ipfs s = Some client →
  ∃ lines,
    isPinned s pin_ls cid
      = (PinLs cid :: lines, inr (bool_decide (cid ∈ fst (pin_ls cid)))) ∧
    ∀ eff, eff ∈ lines → ∃ level line, eff = Print level line.
Proof.
  intros Hclient. unfold isPinned. rewrite Hclient.
  destruct (decide (cid ∈ fst (pin_ls cid))) as [Hin|Hnin].
  - rewrite (scan_pins_found _ _ _ Hin), bool_decide_eq_true_2 by done.
    exists []. split; [done|]. by intros eff ?%elem_of_nil.
  - rewrite (scan_pins_missed _ _ _ Hnin), bool_decide_eq_false_2 by done.
    destruct (snd (pin_ls cid)) as [error|]; simpl.
    + eexists [_]. split; [done|]. intros eff ->%list_elem_of_singleton. eauto.
    + exists []. split; [done|]. by intros eff ?%elem_of_nil.
Qed.

(** With a client, [pinContent] sends one pin request, prints one line and
    answers whether the request succeeded. *)
Lemma pinContent_initialised s client cid :
  ipfs s = Some client →
  ∃ level line,
    pinContent s cid
      = ([PinAdd cid; Print level line],
         inr (match pin_add client cid with inr _ => true | inl _ => false end)).
Proof.
  intros Hclient. unfold pinContent. rewrite Hclient.
  destruct (pin_add client cid) as [error|[]]; simpl; eauto.
Qed.

Lemma pin_requests_of_prints (lines : list Effect) :
  (∀ eff, eff ∈ lines → ∃ level line, eff = Print level line) →
  pin_requests lines = [].
Proof.
  induction lines as [|eff lines IH]; [done|]. intros Hprints.
  destruct (Hprints eff) as (level & line & ->); [by left|].
  simpl. apply IH. intros eff' Hin. apply Hprints. by right.
Qed.

Lemma pin_requests_app (t1 t2 : list Effect) :
  pin_requests (t1 ++ t2) = pin_requests t1 ++ pin_requests t2.
Proof. apply omap_app. Qed.

Lemma pin_requests_cons (eff : Effect) (t : list Effect) :
  pin_requests (eff :: t)
    = match eff with PinAdd c => c :: pin_requests t | _ => pin_requests t end.
Proof. by destruct eff. Qed.

Lemma isPinned_uninitialised s pin_ls cid :
  ipfs s = None →
  isPinned s pin_ls cid
    = ([], inl "IPFS client not initialized. Call initializeIPFS first.").
Proof. intros Hclient. unfold isPinned. by rewrite Hclient. Qed.

End pinning.

(** X16.  Once the client is initialised, [isPinned] and [pinContent] never
    reject.  [isPinned(cid)] sends a single listing request and answers true
    exactly when the listing yields [cid], also when the listing throws after
    that; [pinContent(cid)] sends a single pin request and answers whether it
    succeeded. *)
Theorem pin_checks_never_reject s client pin_ls cid :
  IpfsService.ipfs s = Some client →
  (∃ lines pinned,
     IpfsService.isPinned s pin_ls cid = (IpfsService.PinLs cid :: lines, inr pinned) ∧
     (pinned = true ↔ cid ∈ fst (pin_ls cid)) ∧
     (∀ c, IpfsService.PinAdd c ∉ lines) ∧ (∀ c, IpfsService.PinLs c ∉ lines)) ∧
  (∃ level line pinned,
     IpfsService.pinContent s cid
       = ([IpfsService.PinAdd cid; IpfsService.Print level line], inr pinned) ∧
     (pinned = true ↔ ∃ ack, IpfsService.pin_add client cid = inr ack)).
Proof.
  intros Hclient. split.
  - destruct (isPinned_initialised s client pin_ls cid Hclient) as (lines & -> & Hlines).
    exists lines, (bool_decide (cid ∈ fst (pin_ls cid))).
    split_and!; [done|apply bool_decide_eq_true| |].
    + intros c (? & ? & ?)%Hlines. done.
    + intros c (? & ? & ?)%Hlines. done.
  - destruct (pinContent_initialised s client cid Hclient) as (level & line & ->).
    eexists level, line, _. split; [done|].
    destruct (IpfsService.pin_add client cid) as [error|ack].
    + split; [done|]. by intros [? ?].
    + split; [by eexists|done].
Qed.

Lemma pin_checks_never_reject_witness :
  ∃ lines,
    IpfsService.isPinned Demo.no_pin_service (λ c, ([c], Some "listing ended badly"))
      "bafyAAA" = (IpfsService.PinLs "bafyAAA" :: lines, inr true).
Proof.
  destruct (pin_checks_never_reject Demo.no_pin_service Demo.no_pin_client
              (λ c, ([c], Some "listing ended badly")) "bafyAAA" eq_refl)
    as [(lines & pinned & Hrun & Hpinned & _) _].
  exists lines. rewrite Hrun. do 2 f_equal. apply Hpinned. by left.
Defined.

(** X17.  The pinning block of the collection view never rejects, whatever the
    node answers.  With a client, the pin requests it sends are exactly: one
    for the metadata identifier if the listing did not yield it, then one for
    the image identifier if that is non-empty and the listing did not yield
    it.  Without a client it sends no request and prints one warning. *)
Theorem ensurePinned_requests s pin_ls cid imageCid :
  snd (CollectionView.ensurePinned s pin_ls cid imageCid) = inr tt ∧
  (∀ client, IpfsService.ipfs s = Some client →
     IpfsService.pin_requests (fst (CollectionView.ensurePinned s pin_ls cid imageCid))
       = (if bool_decide (cid ∈ fst (pin_ls cid)) then [] else [cid]) ++
         (if bool_decide (imageCid = "") then []
          else if bool_decide (imageCid ∈ fst (pin_ls imageCid)) then []
               else [imageCid])) ∧
  (IpfsService.ipfs s = None →
     fst (CollectionView.ensurePinned s pin_ls cid imageCid)
       = [IpfsService.Print IpfsService.WARN
            "Could not pin content: IPFS client not initialized. Call initializeIPFS first."]).
Proof.
  unfold CollectionView.ensurePinned.
  destruct (IpfsService.ipfs s) as [client|] eqn:Hclient.
  - destruct (isPinned_initialised s client pin_ls cid Hclient) as (l1 & -> & Hl1).
    destruct (isPinned_initialised s client pin_ls imageCid Hclient) as (l2 & -> & Hl2).
    destruct (pinContent_initialised s client cid Hclient) as (v1 & p1 & ->).
    destruct (pinContent_initialised s client imageCid Hclient) as (v2 & p2 & ->).
    apply pin_requests_of_prints in Hl1, Hl2.
    split_and!; [|intros ? _|done].
    + repeat case_bool_decide; reflexivity.
    + repeat case_bool_decide;
        cbn [IpfsService.and_then IpfsService.try_catch IpfsService.resolve
             IpfsService.print fst snd];
        repeat first [rewrite pin_requests_app | rewrite pin_requests_cons];
        rewrite ?Hl1, ?Hl2; reflexivity.
  - rewrite (isPinned_uninitialised s pin_ls cid Hclient). simpl.
    split_and!; [done|done|done].
Qed.

Lemma ensurePinned_requests_witness :
  IpfsService.pin_requests
    (fst (CollectionView.ensurePinned Demo.no_pin_service
            (λ c, (if bool_decide (c = "bafyM") then [c] else [], None))
            "bafyM" "bafyI"))
    = ["bafyI"].
Proof.
  destruct (ensurePinned_requests Demo.no_pin_service
              (λ c, (if bool_decide (c = "bafyM") then [c] else [], None))
              "bafyM" "bafyI") as (_ & Hrequests & _).
  rewrite (Hrequests Demo.no_pin_client eq_refl). reflexivity.
Defined.

(** ** Verifying from the collection view *)

Lemma st_hashed_reachable : reachable Demo.st_hashed.
Proof.
  apply (reachable_step empty_state Demo.at_100_alice
           (StoreMetadata "bafyAAA" "00ff" "demo" "bafyIMG")).
  - apply reachable_empty.
  - done.
  - by vm_compute.
Qed.

(** X18.  When the digest function answers and the contract call returns what
    [getCIDByHash] returns in a reachable state, [handleVerifyNFT] of a
    non-empty identifier shows "NFT verified" exactly when [verifyMetadata] of
    the identifier and the hexadecimal digest of the identifier is true in
    that state, and "CID mismatch" exactly when it is false. *)
Theorem handleVerifyNFT_agrees subtle_digest contract st metadataCid digest :
  reachable st →
  metadataCid ≠ "" →
  subtle_digest (String.list_byte_of_string metadataCid) = inr digest →
  (∀ h stored, getCIDByHash h st = Done stored st → contract h = inr stored) →
  (snd (CollectionView.handleVerifyNFT subtle_digest contract metadataCid)
     = CollectionView.NFTVerified ↔
   verifyMetadata metadataCid (IpfsService.hashHex digest) st = Done true st) ∧
  (snd (CollectionView.handleVerifyNFT subtle_digest contract metadataCid)
     = CollectionView.CIDMismatch ↔
   verifyMetadata metadataCid (IpfsService.hashHex digest) st = Done false st).
Proof.
  intros Hinv%reachable_inv Hcid Hdigest Hcontract.
  unfold CollectionView.handleVerifyNFT, IpfsService.generateSHA256Hash.
  rewrite Hdigest.
  rewrite (Hcontract (IpfsService.hashHex digest)
             ((hashToCID st).[IpfsService.hashHex digest]) eq_refl).
  unfold verifyMetadata, mbind, tx_bind, bind, gets, mret, tx_ret, ret. simpl.
  destruct (decide ((hashToCID st).[IpfsService.hashHex digest] = metadataCid))
    as [Hslot|Hslot].
  - assert (Hact : (cidToOwner st).[metadataCid] ≠ address0).
    { by apply (inv_hash st Hinv (IpfsService.hashHex digest) metadataCid). }
    rewrite !bool_decide_eq_true_2 by done. simpl. by split.
  - rewrite (bool_decide_eq_false_2 _ Hslot). rewrite andb_false_r. by split.
Qed.

Lemma handleVerifyNFT_agrees_witness :
  snd (CollectionView.handleVerifyNFT Demo.short_digest
         (Demo.contract_at Demo.st_hashed) "bafyAAA")
    = CollectionView.NFTVerified.
Proof.
  apply (handleVerifyNFT_agrees Demo.short_digest (Demo.contract_at Demo.st_hashed)
           Demo.st_hashed "bafyAAA" [Byte.x00; Byte.xff]).
  - exact st_hashed_reachable.
  - done.
  - reflexivity.
  - intros h stored [= <-]. reflexivity.
  - by vm_compute.
Defined.
